(** * MedGamm: gamma correction through a 256-entry lookup table

    A shallow embedding of [adjust_gamma] from [src/app.py]:

<<
    def adjust_gamma(image, gamma=1.0):
        invGamma = 1.0 / gamma
        table = np.array([((i / 255.0) ** invGamma) * 255
                          for i in np.arange(0, 256)]).astype("uint8")
        return cv2.LUT(image, table)
>>

    Python floats and NumPy [float64] scalars are IEEE-754 binary64 numbers,
    modelled by Rocq's primitive floats, whose division and multiplication
    are the correctly rounded ones.  Two operations are not determined by
    the source: the C library's [pow], reached through [**], and the result
    of the C cast behind [astype("uint8")] on a value outside the range of
    an unsigned byte.  Both are parameters of the model; what is assumed of
    [pow] is stated, property by property, where it is used. *)

From Stdlib Require Import ZArith List Bool Lia Floats.
From Stdlib Require String.
Import ListNotations.

Local Open Scope Z_scope.

(** ** Exceptions and results *)

Inductive exn : Type :=
| ZeroDivisionError   (* Python: float division by zero *)
| cv2_error           (* OpenCV: a failed argument check *)
| NameError.          (* a reference that designates no object *)

Inductive result (A : Type) : Type :=
| Ok (a : A)
| Raise (e : exn).

Arguments Ok {A} a.
Arguments Raise {A} e.


(** ** Arrays *)

(** The element types an image array can have; OpenCV calls them depths. *)
Inductive dtype : Type :=
| uint8 | int8 | uint16 | int16 | int32 | float32 | float64.

(** A NumPy array as OpenCV receives it: two axes (rows, columns) for a
    single-channel image, three (rows, columns, channels) for a
    multi-channel one.  An item is kept as the integer stored in the
    buffer. *)
Inductive ndarray : Type :=
| Gray (dt : dtype) (px : list (list Z))
| Multi (dt : dtype) (px : list (list (list Z))).

Definition dtype_of (a : ndarray) : dtype :=
  match a with Gray dt _ | Multi dt _ => dt end.

(** [shape] of a two-axis array: rows, and columns of the first row. *)
Definition shape (px : list (list Z)) : nat * nat :=
  (length px, match px with [] => O | row :: _ => length row end).

(** [px[r][c]], when both indices are in range. *)
Definition pixel (px : list (list Z)) (r c : nat) : option Z :=
  match nth_error px r with
  | Some row => nth_error row c
  | None => None
  end.

Definition is_byte (p : Z) : bool := (0 <=? p) && (p <=? 255).

Definition rectangular (px : list (list Z)) : bool :=
  forallb (fun row => Nat.eqb (length row) (snd (shape px))) px.

(** The data model's Image: rows x cols samples, each in [0,255]. *)
Definition valid_pixels (px : list (list Z)) : bool :=
  rectangular px && forallb (forallb is_byte) px.



(** ** Floating-point helpers *)

(** [np.int64] to [float64]; exact for the table indices. *)
Definition float_of_int (i : Z) : float := of_uint63 (Uint63.of_Z i).

(** Truncation toward zero of a finite float; 0 on NaN and infinities. *)
Definition SFtrunc (f : spec_float) : Z :=
  match f with
  | S754_finite s m e =>
      cond_Zopp s (if 0 <=? e then Z.pos m * 2 ^ e else Z.pos m / 2 ^ (- e))
  | _ => 0
  end.

Definition trunc (x : float) : Z := SFtrunc (Prim2SF x).

(** The values whose integral part an unsigned byte can hold: for these the
    C conversion is defined and truncates. *)
Definition in_uint8_range (x : float) : bool :=
  ((-1) <? x)%float && (x <? 256)%float.

Definition wrap8 (z : Z) : Z := z mod 256.

Definition clamp8 (z : Z) : Z := Z.max 0 (Z.min 255 z).

Definition arange (lo hi : Z) : list Z :=
  map (fun k => lo + Z.of_nat k) (seq 0 (Z.to_nat (hi - lo))).

(** A finite, strictly positive gamma. *)
Definition positive_gamma (gamma : float) : bool :=
  (0 <? gamma)%float && (gamma <? infinity)%float.

(** ** OpenCV's table lookup *)

(** [cv2.LUT(src, lut)]: every item [p] of an 8-bit [src] becomes
    [lut[p + d]], with [d = 0] for unsigned and [d = 128] for signed bytes;
    the result has the shape and channels of [src] and the depth of [lut].
    Any other depth, or a table that has not 256 entries, fails the
    argument check before any lookup. *)
Definition lut_offset (dt : dtype) : option Z :=
  match dt with
  | uint8 => Some 0
  | int8 => Some 128
  | _ => None
  end.


Definition lookup (lut : list Z) (d p : Z) : Z := nth (Z.to_nat (p + d)) lut 0.

Definition cv2_LUT (src : ndarray) (lut : list Z) : result ndarray :=
  match lut_offset (dtype_of src) with
  | None => Raise cv2_error
  | Some d =>
      if negb (Nat.eqb (length lut) 256) then Raise cv2_error
      else Ok match src with
              | Gray _ px => Gray uint8 (map (map (lookup lut d)) px)
              | Multi _ px => Multi uint8 (map (map (map (lookup lut d))) px)
              end
  end.

(** ** The object store *)



(** ** The program *)

Section AdjustGamma.

(** C's [pow] on doubles. *)
Variable pow : float -> float -> float.

(** What the platform's cast to [unsigned char] yields outside
    [in_uint8_range]. *)
Variable cast_oob : float -> Z.

Definition astype_uint8 (v : float) : Z :=
  wrap8 (if in_uint8_range v then trunc v else cast_oob v).

(** The value [((i / 255.0) ** invGamma) * 255] before the cast. *)
Definition gamma_value (invGamma : float) (i : Z) : float :=
  (pow (float_of_int i / 255) invGamma * 255)%float.

Definition gamma_table (invGamma : float) : list Z :=
  map (fun i => astype_uint8 (gamma_value invGamma i)) (arange 0 256).

(** [gamma] is a Python float, as the slider and the default argument supply
    it: dividing by a zero of either sign raises. *)
Definition adjust_gamma (image : ndarray) (gamma : float) : result ndarray :=
  if (gamma =? 0)%float then Raise ZeroDivisionError
  else
    let invGamma := (1 / gamma)%float in
    let table := gamma_table invGamma in
    cv2_LUT image table.


End AdjustGamma.

(** ** What is assumed of [pow] *)

(** [pow(x, 1) = x]. *)
Definition pow_exponent_one (pw : float -> float -> float) : Prop :=
  forall x, pw x 1%float = x.

(** [pow(+0, y) = +0] for [y > 0]. *)
Definition pow_base_zero (pw : float -> float -> float) : Prop :=
  forall y, (0 <? y)%float = true -> pw 0%float y = 0%float.

(** [pow(1, y) = 1]. *)
Definition pow_base_one (pw : float -> float -> float) : Prop :=
  forall y, pw 1%float y = 1%float.

(** A positive power of a number of the unit interval stays in it. *)
Definition pow_unit_interval (pw : float -> float -> float) : Prop :=
  forall x y,
    (0 <=? x)%float = true -> (x <=? 1)%float = true -> (0 <? y)%float = true ->
    (0 <=? pw x y)%float = true /\ (pw x y <=? 1)%float = true.

(** A positive power is non-decreasing in its base on the unit interval. *)
Definition pow_monotone (pw : float -> float -> float) : Prop :=
  forall x x' y,
    (0 <=? x)%float = true -> (x <=? x')%float = true ->
    (x' <=? 1)%float = true -> (0 <? y)%float = true ->
    (pw x y <=? pw x' y)%float = true.



(** Two functions that meet these assumptions: the first is exact at
    exponent one and at base one and a step function elsewhere, the second
    is the square root at every exponent. *)
Definition pow_ref (x y : float) : float :=
  if (y =? 1)%float then x
  else if (1 <=? x)%float then 1%float
  else 0%float.

Definition pow_half (x y : float) : float := sqrt x.

(** A cast that yields 0 outside the range of a byte. *)
Definition cast_zero (v : float) : Z := 0.

(** ** Binary64 rounding, on integers *)

(** After [n] one-bit shifts of [(M, false, false)]: the quotient, the round
    bit and the sticky bit. *)
Definition shr_state (M : Z) (n : nat) : shr_record :=
  let N := 2 ^ Z.of_nat n in
  Build_shr_record (M / N) (N <=? 2 * (M mod N))
                   (negb ((2 * (M mod N)) mod N =? 0)).

(** [A / 2^n] rounded to the nearest integer, ties to even. *)
Definition rne_shift (A n : Z) : Z :=
  round_nearest_even (A / 2 ^ n) (new_location_even (2 ^ n) (A mod 2 ^ n)).

(** A positive integer rounded to 53 significant bits, ties to even. *)
Definition rnd53 (X : Z) : Z :=
  let k := Z.max (Zdigits2 X - 53) 0 in rne_shift X k * 2 ^ k.

Definition SF255 : spec_float := S754_finite false 8972014882652160 (-45).

Definition SF1 : spec_float := S754_finite false 4503599627370496 (-52).

(** The integral part of [p * 255], read off the operand [p]. *)
Definition scaled_trunc (f : spec_float) : Z :=
  match f with
  | S754_finite false m e => rnd53 (255 * Z.pos m) / 2 ^ (- e)
  | _ => 0
  end.

(** A double of the closed unit interval. *)
Inductive unit_interval : spec_float -> Prop :=
| unit_zero (s : bool) : unit_interval (S754_zero s)
| unit_finite (m : positive) (e : Z) :
    bounded prec emax m e = true ->
    e < -52 \/ (e = -52 /\ Z.pos m <= 2 ^ 52) ->
    unit_interval (S754_finite false m e).

(** A double between 0 and 255. *)
Inductive byte_valued : spec_float -> Prop :=
| byte_zero (s : bool) : byte_valued (S754_zero s)
| byte_finite (m : positive) (e : Z) :
    e < -45 \/ (e = -45 /\ Z.pos m <= 255 * 2 ^ 45) ->
    byte_valued (S754_finite false m e).

(** A strictly positive double or plus infinity. *)
Inductive positive_float : spec_float -> Prop :=
| positive_infinity : positive_float (S754_infinity false)
| positive_finite (m : positive) (e : Z) :
    positive_float (S754_finite false m e).

(** ** Histograms, statistics and the page

    The rest of [src/app.py]: [plot_histogram], and what the page computes
    from the slider's value and the two images.  Decoding the upload and
    laying out the page are left to their libraries. *)

(** [image.ravel()]: the items in row-major order. *)
Definition ravel (a : ndarray) : list Z :=
  match a with
  | Gray _ px => concat px
  | Multi _ px => concat (concat px)
  end.

(** Bin [k] of the 256 equal bins over the range [0, 256]: the interval
    from [k] to [k + 1], half-open except for the last bin, which holds its
    right edge too. *)
Definition in_bin (k s : Z) : bool :=
  ((k <=? s) && (s <? k + 1)) || ((k =? 255) && (s =? 256)).

(** [ax.hist(x, 256, [0, 256])]: the count of each bin; a sample outside
    the range is in none. *)
Definition hist (x : list Z) : list Z :=
  map (fun k => Z.of_nat (length (filter (in_bin k) x))) (arange 0 256).

(** What a figure holds once [plot_histogram] has drawn on it. *)
Record figure : Type := {
  fig_title : String.string;
  fig_bars : list Z;
  fig_xlim : Z * Z;
  fig_axis : bool
}.

Definition plot_histogram (image : ndarray) (title : String.string) : figure :=
  {| fig_title := title;
     fig_bars := hist (ravel image);
     fig_xlim := (0, 256);
     fig_axis := false |}.

Definition Zsum (l : list Z) : Z := fold_right Z.add 0 l.

(** The element types whose items are integers. *)
Definition integer_dtype (dt : dtype) : bool :=
  match dt with
  | float32 | float64 => false
  | _ => true
  end.

(** The samples the histogram's range [0, 256] holds. *)
Definition in_hist_range (s : Z) : bool := (0 <=? s) && (s <=? 256).

(** [np.min] and [np.max] over all items; NumPy raises [ValueError] on an
    array without items. *)
Inductive reduced : Type :=
| Reduced (z : Z)
| ValueError.

Definition reduce (f : Z -> Z -> Z) (x : list Z) : reduced :=
  match x with
  | [] => ValueError
  | a :: l => Reduced (fold_left f l a)
  end.

Definition np_min (a : ndarray) : reduced := reduce Z.min (ravel a).

Definition np_max (a : ndarray) : reduced := reduce Z.max (ravel a).

(** The slider: [min_value=0.1], [max_value=3.0]; 0.1 is the double nearest
    to one tenth. *)
Definition slider_range (gamma_val : float) : bool :=
  (0x1.999999999999ap-4 <=? gamma_val)%float && (gamma_val <=? 3)%float.

(** The note under the images: [st.info] when [gamma_val < 1.0],
    [st.warning] when [gamma_val > 1.0], [st.success] otherwise. *)
Inductive alert : Type := st_info | st_warning | st_success.

Definition diagnostic (gamma_val : float) : alert :=
  if (gamma_val <? 1)%float then st_info
  else if (1 <? gamma_val)%float then st_warning
  else st_success.

(** Levels in use: the bins that are not empty. *)
Definition occupied (h : list Z) : nat :=
  length (filter (fun c => 0 <? c) h).

(** Two more assumptions on [pow], for a base of the unit interval: an
    exponent of at least one does not raise it, a positive exponent of at
    most one does not lower it. *)
Definition pow_shrinks (pw : float -> float -> float) : Prop :=
  forall x y,
    (0 <=? x)%float = true -> (x <=? 1)%float = true ->
    (1 <=? y)%float = true ->
    (pw x y <=? x)%float = true.

Definition pow_grows (pw : float -> float -> float) : Prop :=
  forall x y,
    (0 <=? x)%float = true -> (x <=? 1)%float = true ->
    (0 <? y)%float = true -> (y <=? 1)%float = true ->
    (x <=? pw x y)%float = true.

(** A third function that meets the assumptions: exact at exponent one and
    at base zero, and 1 elsewhere. *)
Definition pow_ceil (x y : float) : float :=
  if (y =? 1)%float then x
  else if (x <=? 0)%float then 0%float
  else 1%float.

(** Positivity of a power of two. *)
Ltac pow2_pos := apply Z.pow_pos_nonneg; lia.

(** * Facts about binary64 arithmetic *)

(** ** Iterated shifts *)

(** [iter_pos] is iteration a number of times. *)
Lemma iter_pos_nat {A : Type} (f : A -> A) (p : positive) (x : A) :
  iter_pos f p x = Nat.iter (Pos.to_nat p) f x.
Proof.
  revert x; induction p as [p IH | p IH | ]; intros x.
  - rewrite Pos2Nat.inj_xI; cbn [iter_pos]; rewrite !IH.
    replace (S (2 * Pos.to_nat p)) with (Pos.to_nat p + S (Pos.to_nat p))%nat by lia.
    rewrite Nat.iter_add. f_equal. now rewrite Nat.iter_succ_r.
  - rewrite Pos2Nat.inj_xO; cbn [iter_pos]; rewrite !IH.
    replace (2 * Pos.to_nat p)%nat with (Pos.to_nat p + Pos.to_nat p)%nat by lia.
    now rewrite Nat.iter_add.
  - reflexivity.
Qed.

(** One shift halves the mantissa, keeps the bit shifted out as the round
    bit and folds the old round bit into the sticky bit. *)
Lemma shr_1_spec (mrs : shr_record) :
  0 <= shr_m mrs ->
  shr_1 mrs =
  Build_shr_record (shr_m mrs / 2) (Z.odd (shr_m mrs)) (shr_r mrs || shr_s mrs).
Proof.
  destruct mrs as [m r s]; simpl; intros Hm.
  rewrite <- Z.div2_div.
  destruct m as [ | [p | p | ] | p]; try reflexivity; lia.
Qed.

Lemma shr_m_iter (n : nat) (mrs : shr_record) :
  0 <= shr_m mrs ->
  shr_m (Nat.iter n shr_1 mrs) = shr_m mrs / 2 ^ Z.of_nat n.
Proof.
  intros Hm; induction n as [ | n IH].
  - simpl. now rewrite Z.div_1_r.
  - rewrite Nat.iter_succ, shr_1_spec; cbn [shr_m].
    + rewrite IH, Nat2Z.inj_succ, Z.pow_succ_r, (Z.mul_comm 2), Z.div_div by lia.
      reflexivity.
    + rewrite IH. apply Z_div_nonneg_nonneg; [lia | apply Z.pow_nonneg; lia].
Qed.

Lemma shr_record_of_loc_m (M : Z) (l : location) :
  shr_m (shr_record_of_loc M l) = M.
Proof. destruct l as [ | [ | | ] ]; reflexivity. Qed.

Lemma shr_state_iter (M : Z) (n : nat) :
  0 <= M ->
  Nat.iter n shr_1 (Build_shr_record M false false) = shr_state M n.
Proof.
  intros HM; induction n as [ | n IH].
  - unfold shr_state; simpl. rewrite Z.div_1_r, Z.mod_1_r. reflexivity.
  - rewrite Nat.iter_succ, IH.
    assert (HN : 0 < 2 ^ Z.of_nat n) by pow2_pos.
    rewrite shr_1_spec by (unfold shr_state; cbn [shr_m]; apply Z.div_pos; lia).
    unfold shr_state; cbv zeta; cbn [shr_m shr_r shr_s].
    rewrite Nat2Z.inj_succ, Z.pow_succ_r by lia.
    set (N := 2 ^ Z.of_nat n) in *.
    assert (Hrem : M mod (2 * N) = M mod N + N * ((M / N) mod 2)).
    { rewrite (Z.mul_comm 2 N). apply Z.rem_mul_r; lia. }
    pose proof (Z.mod_pos_bound M N HN) as Hb.
    pose proof (Z.mod_pos_bound (M / N) 2 ltac:(lia)) as Hb2.
    f_equal.
    + rewrite (Z.mul_comm 2 N), Z.div_div by lia. reflexivity.
    + rewrite Hrem. rewrite Zodd_mod.
      destruct (Z.eqb_spec ((M / N) mod 2) 1) as [E | E].
      * rewrite E. symmetry; apply Z.leb_le; lia.
      * replace ((M / N) mod 2) with 0 by lia. symmetry; apply Z.leb_gt; lia.
    + assert (E : (M mod (2 * N)) mod N = M mod N).
      { rewrite Hrem. rewrite (Z.mul_comm N), Z.mod_add by lia.
        apply Z.mod_mod; lia. }
      rewrite Z.mul_mod_distr_l by lia. rewrite E.
      destruct (Z.leb_spec N (2 * (M mod N))) as [L | L]; cbn [orb].
      * destruct (Z.eqb_spec (2 * (M mod N)) 0); [lia | reflexivity].
      * rewrite Z.mod_small by lia. reflexivity.
Qed.

Lemma loc_of_shr_state (M : Z) (n : nat) :
  0 <= M ->
  loc_of_shr_record (shr_state M n) =
  new_location_even (2 ^ Z.of_nat n) (M mod 2 ^ Z.of_nat n).
Proof.
  intros HM. unfold shr_state, new_location_even; cbv zeta.
  assert (HN : 0 < 2 ^ Z.of_nat n) by pow2_pos.
  set (N := 2 ^ Z.of_nat n) in *.
  pose proof (Z.mod_pos_bound M N HN) as Hb.
  set (r := M mod N) in *.
  unfold loc_of_shr_record.
  destruct (Z.leb_spec N (2 * r)) as [L | L].
  - assert (E : (2 * r) mod N = 2 * r - N).
    { symmetry. apply Z.mod_unique with 1; lia. }
    rewrite E.
    destruct (Z.eqb_spec r 0) as [Z0 | NZ]; [lia | ].
    destruct (Z.eqb_spec (2 * r - N) 0) as [Z1 | NZ1]; cbn [negb].
    + rewrite (proj2 (Z.compare_eq_iff (2 * r) N)) by lia. reflexivity.
    + rewrite (proj2 (Z.compare_gt_iff (2 * r) N)) by lia. reflexivity.
  - rewrite Z.mod_small by lia.
    destruct (Z.eqb_spec r 0) as [Z0 | NZ];
      destruct (Z.eqb_spec (2 * r) 0) as [Z1 | NZ1]; cbn [negb]; try lia; try reflexivity.
    rewrite (proj2 (Z.compare_lt_iff (2 * r) N)) by lia. reflexivity.
Qed.

(** A right shift by [p] bits of an exact mantissa, then the rounding. *)
Lemma shr_exact_spec (M : Z) (e : Z) (p : positive) :
  0 <= M ->
  let '(mrs, e') := shr (shr_record_of_loc M loc_Exact) e (Z.pos p) in
  e' = e + Z.pos p /\
  shr_m mrs = M / 2 ^ Z.pos p /\
  round_nearest_even (shr_m mrs) (loc_of_shr_record mrs) = rne_shift M (Z.pos p).
Proof.
  intros HM. unfold shr; simpl shr_record_of_loc.
  rewrite iter_pos_nat, shr_state_iter by assumption.
  rewrite loc_of_shr_state by assumption.
  unfold shr_state, rne_shift; cbv zeta; cbn [shr_m].
  rewrite positive_nat_Z. repeat split.
Qed.

(** ** Binary digits *)

Lemma digits2_pos_size (p : positive) : digits2_pos p = Pos.size p.
Proof. induction p; simpl; congruence. Qed.

(** [Zdigits2] counts binary digits. *)
Lemma Zdigits2_log2 (x : Z) : 0 < x -> Zdigits2 x = Z.log2 x + 1.
Proof.
  destruct x as [ | p | p]; try lia; intros _.
  unfold Zdigits2. destruct p; cbn [digits2_pos Z.log2];
    rewrite ?digits2_pos_size; lia.
Qed.

Lemma Zdigits2_bounds (x : Z) :
  0 < x -> 2 ^ (Zdigits2 x - 1) <= x < 2 ^ Zdigits2 x.
Proof.
  intros Hx. rewrite Zdigits2_log2 by assumption.
  replace (Z.log2 x + 1 - 1) with (Z.log2 x) by lia.
  replace (Z.log2 x + 1) with (Z.succ (Z.log2 x)) by lia.
  apply Z.log2_spec; assumption.
Qed.

Lemma Zdigits2_pos (x : Z) : 0 < x -> 0 < Zdigits2 x.
Proof.
  intros Hx. rewrite Zdigits2_log2 by assumption.
  pose proof (Z.log2_nonneg x). lia.
Qed.

Lemma Zdigits2_le (x y : Z) : 0 < x -> x <= y -> Zdigits2 x <= Zdigits2 y.
Proof.
  intros Hx Hxy. rewrite !Zdigits2_log2 by lia.
  pose proof (Z.log2_le_mono x y Hxy). lia.
Qed.

Lemma Zdigits2_ge (x c : Z) : 0 <= c -> 2 ^ c <= x -> c + 1 <= Zdigits2 x.
Proof.
  intros Hc Hx.
  assert (0 < 2 ^ c) by pow2_pos.
  rewrite Zdigits2_log2 by lia.
  pose proof (Z.log2_le_mono (2 ^ c) x Hx) as H1.
  rewrite Z.log2_pow2 in H1 by lia. lia.
Qed.

Lemma Zdigits2_unique (x d : Z) :
  0 < d -> 2 ^ (d - 1) <= x < 2 ^ d -> Zdigits2 x = d.
Proof.
  intros Hd Hx.
  assert (0 < x) by (pose proof (Z.pow_pos_nonneg 2 (d - 1)); lia).
  rewrite Zdigits2_log2 by assumption.
  rewrite (Z.log2_unique x (d - 1)); [lia | lia | ].
  replace (Z.succ (d - 1)) with d by lia. assumption.
Qed.

Lemma Zdigits2_mul_pow2 (x j : Z) :
  0 < x -> 0 <= j -> Zdigits2 (x * 2 ^ j) = Zdigits2 x + j.
Proof.
  intros Hx Hj.
  pose proof (Zdigits2_bounds x Hx) as B. pose proof (Zdigits2_pos x Hx) as P.
  apply Zdigits2_unique; [lia | ].
  replace (Zdigits2 x + j - 1) with (Zdigits2 x - 1 + j) by lia.
  rewrite !Z.pow_add_r by lia.
  assert (0 < 2 ^ j) by pow2_pos. nia.
Qed.

(** ** Rounding an integer to a multiple of [2^n] *)

Lemma rne_shift_bounds (A n : Z) :
  A / 2 ^ n <= rne_shift A n <= A / 2 ^ n + 1 /\
  (A mod 2 ^ n = 0 -> rne_shift A n = A / 2 ^ n).
Proof.
  unfold rne_shift, new_location_even, round_nearest_even.
  destruct (Z.eqb_spec (A mod 2 ^ n) 0) as [E | E].
  - split; [lia | reflexivity].
  - split; [ | contradiction].
    destruct (2 * (A mod 2 ^ n) ?= 2 ^ n); try destruct (Z.even _); lia.
Qed.

Lemma rne_shift_le_mult (A B n : Z) :
  0 <= n -> A <= B * 2 ^ n -> rne_shift A n <= B.
Proof.
  intros Hn HAB.
  assert (HN : 0 < 2 ^ n) by pow2_pos.
  destruct (rne_shift_bounds A n) as [[_ Hu] Hex].
  pose proof (Z.div_mod A (2 ^ n) ltac:(lia)) as Hdm.
  pose proof (Z.mod_pos_bound A (2 ^ n) HN) as Hb.
  destruct (Z.eq_dec (A mod 2 ^ n) 0) as [E | E].
  - rewrite (Hex E). nia.
  - nia.
Qed.

Lemma rne_shift_ge_mult (A B n : Z) :
  0 <= n -> B * 2 ^ n <= A -> B <= rne_shift A n.
Proof.
  intros Hn HAB.
  assert (HN : 0 < 2 ^ n) by pow2_pos.
  destruct (rne_shift_bounds A n) as [[Hl _] _].
  pose proof (Z.div_le_lower_bound A (2 ^ n) B HN ltac:(lia)). lia.
Qed.

(** Rounding to nearest, ties to even, is monotone. *)
Lemma rne_shift_mono (A A' n : Z) :
  0 <= n -> A <= A' -> rne_shift A n <= rne_shift A' n.
Proof.
  intros Hn HA.
  assert (HN : 0 < 2 ^ n) by pow2_pos.
  pose proof (Z.div_le_mono A A' (2 ^ n) HN HA) as Hq.
  destruct (rne_shift_bounds A n) as [[L U] _].
  destruct (rne_shift_bounds A' n) as [[L' U'] _].
  destruct (Z.eq_dec (A / 2 ^ n) (A' / 2 ^ n)) as [E | E]; [ | lia].
  assert (Hr : A mod 2 ^ n <= A' mod 2 ^ n).
  { pose proof (Z.div_mod A (2 ^ n) ltac:(lia)).
    pose proof (Z.div_mod A' (2 ^ n) ltac:(lia)). rewrite E in *. lia. }
  pose proof (Z.mod_pos_bound A (2 ^ n) HN) as Hb.
  clear L U L' U'.
  unfold rne_shift, new_location_even, round_nearest_even. rewrite <- E.
  destruct (Z.eqb_spec (A mod 2 ^ n) 0) as [Z0 | NZ];
    destruct (Z.eqb_spec (A' mod 2 ^ n) 0) as [Z0' | NZ']; try lia.
  - destruct (2 * (A' mod 2 ^ n) ?= 2 ^ n); try destruct (Z.even _); lia.
  - destruct (Z.compare_spec (2 * (A mod 2 ^ n)) (2 ^ n));
      destruct (Z.compare_spec (2 * (A' mod 2 ^ n)) (2 ^ n));
      try destruct (Z.even _); lia.
Qed.

Lemma rne_shift_scale (A k j : Z) :
  0 <= k -> 0 <= j -> rne_shift (A * 2 ^ j) (k + j) = rne_shift A k.
Proof.
  intros Hk Hj. unfold rne_shift.
  assert (HK : 0 < 2 ^ k) by pow2_pos.
  assert (HJ : 0 < 2 ^ j) by pow2_pos.
  rewrite Z.pow_add_r by lia.
  rewrite Z.div_mul_cancel_r by lia.
  rewrite Z.mul_mod_distr_r by lia.
  f_equal. unfold new_location_even.
  destruct (Z.eqb_spec (A mod 2 ^ k) 0) as [E | E].
  - rewrite E. reflexivity.
  - destruct (Z.eqb_spec (A mod 2 ^ k * 2 ^ j) 0) as [E' | E']; [nia | ].
    f_equal. rewrite Z.mul_assoc. symmetry. apply Zmult_compare_compat_r; lia.
Qed.

Lemma round_nearest_even_ge (m : Z) (l : location) :
  m <= round_nearest_even m l.
Proof. destruct l as [ | [ | | ] ]; cbn; try destruct (Z.even m); lia. Qed.

Lemma rnd53_le_pow2 (X d : Z) : 0 < X -> Zdigits2 X <= d -> rnd53 X <= 2 ^ d.
Proof.
  intros HX Hd. unfold rnd53; cbv zeta.
  pose proof (Zdigits2_bounds X HX) as B. pose proof (Zdigits2_pos X HX) as P.
  set (k := Z.max (Zdigits2 X - 53) 0).
  assert (Hk : 0 <= k <= Zdigits2 X) by lia.
  assert (HN : 0 < 2 ^ k) by pow2_pos.
  assert (E : 2 ^ Zdigits2 X = 2 ^ (Zdigits2 X - k) * 2 ^ k).
  { rewrite <- Z.pow_add_r by lia. f_equal; lia. }
  assert (rne_shift X k <= 2 ^ (Zdigits2 X - k)).
  { apply rne_shift_le_mult; lia. }
  assert (2 ^ Zdigits2 X <= 2 ^ d) by (apply Z.pow_le_mono_r; lia).
  nia.
Qed.

Lemma rnd53_ge_pow2 (X : Z) : 0 < X -> 2 ^ (Zdigits2 X - 1) <= rnd53 X.
Proof.
  intros HX. unfold rnd53; cbv zeta.
  pose proof (Zdigits2_bounds X HX) as B. pose proof (Zdigits2_pos X HX) as P.
  set (k := Z.max (Zdigits2 X - 53) 0).
  assert (Hk : 0 <= k <= Zdigits2 X - 1) by lia.
  assert (HN : 0 < 2 ^ k) by pow2_pos.
  assert (E : 2 ^ (Zdigits2 X - 1) = 2 ^ (Zdigits2 X - 1 - k) * 2 ^ k).
  { rewrite <- Z.pow_add_r by lia. f_equal; lia. }
  assert (2 ^ (Zdigits2 X - 1 - k) <= rne_shift X k).
  { apply rne_shift_ge_mult; lia. }
  nia.
Qed.

Lemma rnd53_pos (X : Z) : 0 < X -> 0 < rnd53 X.
Proof.
  intros HX. pose proof (rnd53_ge_pow2 X HX).
  pose proof (Zdigits2_pos X HX).
  assert (0 < 2 ^ (Zdigits2 X - 1)) by pow2_pos. lia.
Qed.

(** So is rounding to 53 significant bits, also across a change in the
    number of digits. *)
Lemma rnd53_mono (X X' : Z) : 0 < X -> X <= X' -> rnd53 X <= rnd53 X'.
Proof.
  intros HX HXX.
  pose proof (Zdigits2_le X X' HX HXX) as Hd.
  destruct (Z.eq_dec (Zdigits2 X) (Zdigits2 X')) as [E | NE].
  - unfold rnd53; cbv zeta. rewrite <- E.
    set (k := Z.max (Zdigits2 X - 53) 0).
    assert (HN : 0 < 2 ^ k) by pow2_pos.
    pose proof (rne_shift_mono X X' k ltac:(lia) HXX). nia.
  - pose proof (rnd53_le_pow2 X (Zdigits2 X' - 1) HX ltac:(lia)).
    pose proof (rnd53_ge_pow2 X' ltac:(lia)). lia.
Qed.

Lemma rnd53_255_lo : rnd53 (255 * 2 ^ 52) = 255 * 2 ^ 52.
Proof. reflexivity. Qed.

Lemma rnd53_255_hi : rnd53 (255 * 2 ^ 53) = 255 * 2 ^ 53.
Proof. reflexivity. Qed.

(** ** The rounding step of the operations *)

Lemma fexp_eq (x : Z) : fexp prec emax x = Z.max (x - 53) (-1074).
Proof. reflexivity. Qed.

(** Rounding an exact positive quantity [M * 2^E] that needs a right shift:
    the result is finite, and its mantissa and exponent carry the rounded
    quotient. *)
Lemma binary_round_aux_exact (M E : Z) :
  0 < M ->
  let n := fexp prec emax (Zdigits2 M + E) - E in
  0 < n -> 0 < rne_shift M n -> E + n + 1 <= 971 ->
  exists m'' e'',
    binary_round_aux prec emax false M E loc_Exact = S754_finite false m'' e'' /\
    E + n <= e'' <= E + n + 1 /\
    Z.pos m'' * 2 ^ (e'' - (E + n)) = rne_shift M n.
Proof.
  intros HM n Hn HM' Hov.
  unfold binary_round_aux, shr_fexp. fold n.
  destruct n as [ | p | p] eqn:En; try lia.
  pose proof (shr_exact_spec M E p ltac:(lia)) as Hs.
  destruct (shr (shr_record_of_loc M loc_Exact) E (Z.pos p)) as [mrs' e'].
  destruct Hs as (He' & _ & Hr). rewrite Hr. clear Hr mrs'.
  set (M' := rne_shift M (Z.pos p)) in *.
  pose proof (Zdigits2_bounds M HM) as HdM.
  assert (Hn53 : Zdigits2 M <= Z.pos p + 53).
  { rewrite <- En. unfold n. rewrite fexp_eq. lia. }
  assert (Hemin : -1074 <= e').
  { rewrite He', <- En. unfold n. rewrite fexp_eq. lia. }
  assert (HM'le : M' <= 2 ^ 53).
  { apply rne_shift_le_mult; [lia | ].
    rewrite <- Z.pow_add_r by lia.
    assert (2 ^ Zdigits2 M <= 2 ^ (53 + Z.pos p)) by (apply Z.pow_le_mono_r; lia).
    lia. }
  destruct (Z.eq_dec M' (2 ^ 53)) as [Ecarry | Ncarry].
  - rewrite Ecarry.
    replace (Zdigits2 (2 ^ 53)) with 54 by reflexivity.
    rewrite fexp_eq.
    replace (Z.max (54 + e' - 53) (-1074) - e') with 1 by lia.
    exists 4503599627370496%positive, (e' + 1).
    cbn [shr shr_record_of_loc iter_pos shr_1 shr_m].
    replace (2 ^ 53) with 9007199254740992 by reflexivity.
    cbn [shr_1 shr_m].
    replace (e' + 1 <=? emax - prec) with true
      by (symmetry; apply Z.leb_le; unfold emax, prec; lia).
    split; [reflexivity | split; [lia | ] ].
    replace (e' + 1 - (E + Z.pos p)) with 1 by lia. reflexivity.
  - assert (Hd' : Zdigits2 M' <= 53).
    { pose proof (Zdigits2_bounds M' HM') as B.
      apply Z.lt_succ_r, Z.lt_pred_lt_succ, (Z.pow_lt_mono_r_iff 2); lia. }
    rewrite fexp_eq.
    assert (Hn2 : Z.max (Zdigits2 M' + e' - 53) (-1074) - e' <= 0) by lia.
    destruct M' as [ | m' | m'] eqn:EM'; try lia.
    exists m', e'.
    destruct (Z.max (Zdigits2 (Z.pos m') + e' - 53) (-1074) - e') as [ | q | q];
      try lia; cbn [shr shr_record_of_loc shr_m];
      (replace (e' <=? emax - prec) with true
        by (symmetry; apply Z.leb_le; unfold emax, prec; lia));
      (split; [reflexivity | split; [lia | ] ]);
      replace (e' - (E + Z.pos p)) with 0 by lia; lia.
Qed.

(** A quantity of at least [2^-1074] does not vanish under the shift that
    precedes rounding. *)
Lemma shr_fexp_pos (M E : Z) (l : location) :
  0 < M -> -1073 <= Zdigits2 M + E ->
  0 < shr_m (fst (shr_fexp prec emax M E l)) /\
  -1073 <= Zdigits2 (shr_m (fst (shr_fexp prec emax M E l)))
           + snd (shr_fexp prec emax M E l).
Proof.
  intros HM Hd. unfold shr_fexp, shr. rewrite fexp_eq.
  destruct (Z.max (Zdigits2 M + E - 53) (-1074) - E) as [ | p | p] eqn:En;
    cbn [fst snd]; rewrite ?shr_record_of_loc_m; try (split; assumption).
  rewrite iter_pos_nat, shr_m_iter, shr_record_of_loc_m, positive_nat_Z
    by (rewrite shr_record_of_loc_m; lia).
  pose proof (Zdigits2_bounds M HM) as B. pose proof (Zdigits2_pos M HM) as P.
  assert (Hp : Z.pos p <= Zdigits2 M - 1) by lia.
  assert (HN : 0 < 2 ^ Z.pos p) by pow2_pos.
  assert (Hq : 2 ^ (Zdigits2 M - 1 - Z.pos p) <= M / 2 ^ Z.pos p).
  { apply Z.div_le_lower_bound; [exact HN | ].
    rewrite <- Z.pow_add_r by lia.
    replace (Z.pos p + (Zdigits2 M - 1 - Z.pos p)) with (Zdigits2 M - 1) by lia.
    lia. }
  assert (0 < 2 ^ (Zdigits2 M - 1 - Z.pos p)) by pow2_pos.
  split; [lia | ].
  pose proof (Zdigits2_ge (M / 2 ^ Z.pos p) (Zdigits2 M - 1 - Z.pos p) ltac:(lia) Hq).
  lia.
Qed.

(** Rounding never turns a quantity of at least [2^-1074] into a zero. *)
Lemma binary_round_aux_positive (M E : Z) (l : location) :
  0 < M -> -1073 <= Zdigits2 M + E ->
  positive_float (binary_round_aux prec emax false M E l).
Proof.
  intros HM Hd. unfold binary_round_aux.
  pose proof (shr_fexp_pos M E l HM Hd) as [H1 H2].
  destruct (shr_fexp prec emax M E l) as [mrs' e']. cbn [fst snd] in *.
  pose proof (round_nearest_even_ge (shr_m mrs') (loc_of_shr_record mrs')) as Hr.
  set (M' := round_nearest_even (shr_m mrs') (loc_of_shr_record mrs')) in *.
  pose proof (Zdigits2_le (shr_m mrs') M' H1 Hr) as Hdd.
  pose proof (shr_fexp_pos M' e' loc_Exact ltac:(lia) ltac:(lia)) as [H3 _].
  destruct (shr_fexp prec emax M' e' loc_Exact) as [mrs'' e'']. cbn [fst] in H3.
  destruct (shr_m mrs'') as [ | m'' | m'']; try lia.
  destruct (e'' <=? emax - prec); constructor.
Qed.

(** ** Valid doubles and their order *)

(** A valid double has a canonical mantissa: 53 bits, or fewer at the least
    exponent. *)
Lemma bounded_inv (m : positive) (e : Z) :
  bounded prec emax m e = true ->
  Z.max (Zdigits2 (Z.pos m) + e - 53) (-1074) = e /\ e <= 971.
Proof.
  unfold bounded, canonical_mantissa. rewrite fexp_eq.
  intros H; apply andb_prop in H; destruct H as [H1 H2].
  apply Z.eqb_eq in H1. apply Z.leb_le in H2.
  unfold emax, prec in H2. cbn [Zdigits2]. lia.
Qed.

Lemma bounded_mantissa (m : positive) (e : Z) :
  bounded prec emax m e = true -> Z.pos m < 2 ^ 53.
Proof.
  intros H; apply bounded_inv in H; destruct H as [H _].
  pose proof (Zdigits2_bounds (Z.pos m) ltac:(lia)) as B.
  assert (2 ^ Zdigits2 (Z.pos m) <= 2 ^ 53) by (apply Z.pow_le_mono_r; lia).
  lia.
Qed.

Lemma bounded_normal (m : positive) (e : Z) :
  bounded prec emax m e = true -> -1074 < e -> 2 ^ 52 <= Z.pos m.
Proof.
  intros H He; apply bounded_inv in H; destruct H as [H _].
  pose proof (Zdigits2_bounds (Z.pos m) ltac:(lia)) as B.
  replace (Zdigits2 (Z.pos m)) with 53 in B by lia. exact (proj1 B).
Qed.

Lemma SFcompare_pos_finite (m : positive) (e : Z) (m' : positive) (e' : Z) :
  SFcompare (S754_finite false m e) (S754_finite false m' e') =
  Some match e ?= e' with
       | Lt => Lt
       | Gt => Gt
       | Eq => (Z.pos m ?= Z.pos m')
       end.
Proof. reflexivity. Qed.

(** Positive finite doubles compare by exponent, then by mantissa. *)
Lemma SFleb_pos_finite (m : positive) (e : Z) (m' : positive) (e' : Z) :
  SFleb (S754_finite false m e) (S754_finite false m' e') = true <->
  e < e' \/ (e = e' /\ Z.pos m <= Z.pos m').
Proof.
  unfold SFleb; rewrite SFcompare_pos_finite.
  destruct (Z.compare_spec e e') as [E | L | G].
  - destruct (Z.compare_spec (Z.pos m) (Z.pos m')); split; intros HH;
      try discriminate; try reflexivity; lia.
  - split; [lia | reflexivity].
  - split; [discriminate | lia].
Qed.

Lemma SFltb_pos_finite (m : positive) (e : Z) (m' : positive) (e' : Z) :
  SFltb (S754_finite false m e) (S754_finite false m' e') = true <->
  e < e' \/ (e = e' /\ Z.pos m < Z.pos m').
Proof.
  unfold SFltb; rewrite SFcompare_pos_finite.
  destruct (Z.compare_spec e e') as [E | L | G].
  - destruct (Z.compare_spec (Z.pos m) (Z.pos m')); split; intros HH;
      try discriminate; try reflexivity; lia.
  - split; [lia | reflexivity].
  - split; [discriminate | lia].
Qed.

Lemma SFleb_one_trans (f g : spec_float) :
  SFleb SF1 f = true -> SFleb f g = true -> SFleb SF1 g = true.
Proof.
  intros H1 H2.
  destruct f as [s | s | | s m e]; try discriminate.
  - destruct s; [discriminate | ].
    destruct g as [s' | [ | ] | | s' m' e']; try discriminate; reflexivity.
  - destruct s; [discriminate | ].
    destruct g as [s' | [ | ] | | [ | ] m' e']; try discriminate; try reflexivity.
    unfold SF1 in *.
    apply SFleb_pos_finite in H1. apply SFleb_pos_finite in H2.
    apply SFleb_pos_finite. lia.
Qed.

Lemma unit_interval_intro (f : spec_float) :
  valid_binary f = true ->
  SFleb (S754_zero false) f = true -> SFleb f SF1 = true ->
  unit_interval f.
Proof.
  intros Hv H0 H1. destruct f as [s | s | | s m e].
  - constructor.
  - destruct s; discriminate.
  - discriminate.
  - destruct s; [discriminate | ].
    constructor; [exact Hv | ]. apply SFleb_pos_finite in H1. exact H1.
Qed.

Lemma unit_interval_below (f g : spec_float) :
  valid_binary f = true ->
  SFleb (S754_zero false) f = true -> SFleb f g = true ->
  unit_interval g -> unit_interval f.
Proof.
  intros Hv H0 Hfg Hg. destruct f as [s | s | | s m e].
  - constructor.
  - destruct s; [discriminate | ].
    destruct Hg; discriminate.
  - discriminate.
  - destruct s; [discriminate | ].
    destruct Hg as [s' | m' e' Hb' Hle']; [destruct s'; discriminate | ].
    apply SFleb_pos_finite in Hfg.
    constructor; [exact Hv | lia].
Qed.

Lemma positive_float_gt_zero (f : spec_float) :
  positive_float f -> SFltb (S754_zero false) f = true.
Proof. intros [ | m e]; reflexivity. Qed.

(** ** Multiplication by 255 *)

(** The product of a finite positive double with 255, before it is read
    back: mantissa and exponent hold [255 * m] rounded to 53 bits. *)
Lemma SFmul_255 (m : positive) (e : Z) :
  bounded prec emax m e = true -> e <= 900 ->
  exists m'' e'',
    SF64mul (S754_finite false m e) SF255 = S754_finite false m'' e'' /\
    e <= e'' <= e + 9 /\ Z.pos m'' * 2 ^ (e'' - e) = rnd53 (255 * Z.pos m).
Proof.
  intros Hb He.
  pose proof (bounded_inv m e Hb) as [Hc _].
  unfold SF64mul, SFmul, SF255. cbn [xorb].
  set (A := 255 * Z.pos m).
  assert (HA : 0 < A) by (unfold A; lia).
  assert (EM : Z.pos (m * 8972014882652160) = A * 2 ^ 45).
  { unfold A. rewrite Pos2Z.inj_mul. change (2 ^ 45) with 35184372088832. lia. }
  rewrite EM.
  pose proof (Zdigits2_mul_pow2 A 45 HA ltac:(lia)) as HdM.
  pose proof (Zdigits2_le (Z.pos m) A ltac:(lia) ltac:(unfold A; lia)) as Hdle.
  pose proof (Zdigits2_bounds A HA) as BA.
  pose proof (Zdigits2_pos A HA) as PA.
  set (k := Z.max (Zdigits2 A - 53) 0).
  assert (Hn : fexp prec emax (Zdigits2 (A * 2 ^ 45) + (e + -45)) - (e + -45) = k + 45).
  { rewrite fexp_eq, HdM. unfold k. lia. }
  assert (Hk8 : k <= 8).
  { pose proof (bounded_mantissa m e Hb).
    assert (A < 2 ^ 61) by (unfold A; change (2 ^ 61) with (256 * 2 ^ 53); lia).
    assert (Zdigits2 A - 1 < 61) by (apply (Z.pow_lt_mono_r_iff 2); lia).
    unfold k; lia. }
  assert (Hr : rne_shift (A * 2 ^ 45) (k + 45) = rne_shift A k).
  { apply rne_shift_scale; unfold k; lia. }
  assert (Hpos : 0 < rne_shift A k).
  { apply Z.lt_le_trans with 1; [lia | ].
    apply rne_shift_ge_mult; [unfold k; lia | ].
    assert (2 ^ k <= 2 ^ (Zdigits2 A - 1)) by (apply Z.pow_le_mono_r; unfold k; lia).
    lia. }
  destruct (binary_round_aux_exact (A * 2 ^ 45) (e + -45)) as (m'' & e'' & Hres & Hee & Hval).
  - lia.
  - rewrite Hn; unfold k; lia.
  - rewrite Hn, Hr; exact Hpos.
  - rewrite Hn; lia.
  - rewrite Hn, Hr in *. exists m'', e''. split; [exact Hres | split; [unfold k in *; lia | ] ].
    unfold rnd53; cbv zeta; fold k.
    rewrite <- Hval.
    replace (e'' - e) with ((e'' - (e + -45 + (k + 45))) + k) by lia.
    rewrite Z.pow_add_r by (unfold k in *; lia). lia.
Qed.

Lemma SFtrunc_mul_255 (m : positive) (e : Z) :
  bounded prec emax m e = true -> e <= -52 ->
  SFtrunc (SF64mul (S754_finite false m e) SF255) =
  scaled_trunc (S754_finite false m e).
Proof.
  intros Hb He.
  destruct (SFmul_255 m e Hb ltac:(lia)) as (m'' & e'' & Hres & Hee & Hval).
  rewrite Hres. cbn [SFtrunc scaled_trunc cond_Zopp].
  destruct (Z.leb_spec 0 e'') as [L | L]; [lia | ].
  rewrite <- Hval.
  assert (E : 2 ^ (- e) = 2 ^ (- e'') * 2 ^ (e'' - e)).
  { rewrite <- Z.pow_add_r by lia. f_equal; lia. }
  rewrite E. symmetry. apply Z.div_mul_cancel_r.
  - apply Z.pow_nonzero; lia.
  - apply Z.pow_nonzero; lia.
Qed.

Lemma scaled_trunc_nonneg (f : spec_float) : 0 <= scaled_trunc f.
Proof.
  destruct f as [s | s | | [ | ] m e]; cbn [scaled_trunc]; try lia.
  apply Z_div_nonneg_nonneg.
  - pose proof (rnd53_pos (255 * Z.pos m) ltac:(lia)). lia.
  - apply Z.pow_nonneg; lia.
Qed.

Lemma scaled_trunc_le_255 (f : spec_float) :
  unit_interval f -> scaled_trunc f <= 255.
Proof.
  intros [s | m e Hb Hle]; cbn [scaled_trunc]; [lia | ].
  pose proof (bounded_mantissa m e Hb) as Hm.
  assert (Hp : 0 < 2 ^ (- e)) by pow2_pos.
  apply Z.div_le_upper_bound; [exact Hp | ].
  destruct Hle as [L | [E L] ].
  - pose proof (rnd53_mono (255 * Z.pos m) (255 * 2 ^ 53) ltac:(lia) ltac:(lia)) as H.
    rewrite rnd53_255_hi in H.
    assert (2 ^ 53 <= 2 ^ (- e)) by (apply Z.pow_le_mono_r; lia). nia.
  - pose proof (rnd53_mono (255 * Z.pos m) (255 * 2 ^ 52) ltac:(lia) ltac:(lia)) as H.
    rewrite rnd53_255_lo in H. subst e. change (- -52) with 52. lia.
Qed.

(** The integral part of [p * 255] is monotone in [p]. *)
Lemma scaled_trunc_mono (f g : spec_float) :
  unit_interval f -> unit_interval g -> SFleb f g = true ->
  scaled_trunc f <= scaled_trunc g.
Proof.
  intros [s | m e Hb Hle] Hg Hfg.
  - apply scaled_trunc_nonneg.
  - destruct Hg as [s' | m' e' Hb' Hle']; [destruct s'; discriminate | ].
    apply SFleb_pos_finite in Hfg. cbn [scaled_trunc].
    assert (Hp : 0 < 2 ^ (- e)) by pow2_pos.
    assert (Hp' : 0 < 2 ^ (- e')) by pow2_pos.
    destruct Hfg as [L | [E L] ].
    + pose proof (bounded_mantissa m e Hb) as Hm.
      pose proof (bounded_normal m' e' Hb') as Hm'.
      pose proof (bounded_inv m e Hb) as [Hc _].
      specialize (Hm' ltac:(lia)).
      pose proof (rnd53_mono (255 * Z.pos m) (255 * 2 ^ 53) ltac:(lia) ltac:(lia)) as H.
      rewrite rnd53_255_hi in H.
      pose proof (rnd53_mono (255 * 2 ^ 52) (255 * Z.pos m') ltac:(lia) ltac:(lia)) as H'.
      rewrite rnd53_255_lo in H'.
      apply Z.le_trans with (255 * 2 ^ 52 / 2 ^ (- e')).
      * apply Z.le_trans with (255 * 2 ^ 53 / 2 ^ (- e)).
        -- apply Z.div_le_mono; lia.
        -- replace (- e) with (1 + (- e' + (e' - e - 1))) by lia.
           rewrite Z.pow_add_r by lia.
           change (255 * 2 ^ 53) with (2 ^ 1 * (255 * 2 ^ 52)).
           rewrite Z.div_mul_cancel_l;
             [ | apply Z.pow_nonzero; lia | discriminate ].
           apply Z.div_le_compat_l; [lia | ].
           split; [exact Hp' | ].
           rewrite Z.pow_add_r by lia.
           assert (0 < 2 ^ (e' - e - 1)) by pow2_pos. nia.
      * apply Z.div_le_mono; lia.
    + subst e'. apply Z.div_le_mono; [exact Hp | ].
      apply rnd53_mono; lia.
Qed.

(** The product of a double of the unit interval with 255 is at most 255. *)
Lemma SFmul_255_byte_valued (f : spec_float) :
  unit_interval f -> valid_binary (SF64mul f SF255) = true ->
  byte_valued (SF64mul f SF255).
Proof.
  intros [s | m e Hb Hle] Hv; [constructor | ].
  destruct (SFmul_255 m e Hb ltac:(lia)) as (m'' & e'' & Hres & Hee & Hval).
  rewrite Hres in *. constructor.
  destruct (Z.lt_ge_cases e'' (-45)) as [L | G]; [left; exact L | right].
  cbn [valid_binary] in Hv.
  pose proof (bounded_normal m'' e'' Hv ltac:(lia)) as Hn.
  pose proof (bounded_mantissa m e Hb) as Hm.
  assert (Hj : 0 <= e'' - e) by lia.
  destruct Hle as [L | [E L] ].
  - pose proof (rnd53_mono (255 * Z.pos m) (255 * 2 ^ 53) ltac:(lia) ltac:(lia)) as H.
    rewrite rnd53_255_hi, <- Hval in H.
    destruct (Z.le_gt_cases 9 (e'' - e)) as [L9 | L9].
    + assert (2 ^ 9 <= 2 ^ (e'' - e)) by (apply Z.pow_le_mono_r; lia).
      change (2 ^ 9) with 512 in *. change (2 ^ 53) with 9007199254740992 in *.
      change (2 ^ 52) with 4503599627370496 in *. nia.
    + assert (E8 : e'' - e = 8) by lia. rewrite E8 in H.
      change (2 ^ 8) with 256 in H. change (2 ^ 53) with (256 * 2 ^ 45) in H.
      lia.
  - pose proof (rnd53_mono (255 * Z.pos m) (255 * 2 ^ 52) ltac:(lia) ltac:(lia)) as H.
    rewrite rnd53_255_lo, <- Hval in H. subst e.
    destruct (Z.le_gt_cases 8 (e'' - -52)) as [L8 | L8].
    + assert (2 ^ 8 <= 2 ^ (e'' - -52)) by (apply Z.pow_le_mono_r; lia).
      change (2 ^ 8) with 256 in *.
      change (2 ^ 52) with 4503599627370496 in *. nia.
    + assert (E7 : e'' - -52 = 7) by lia. rewrite E7 in H.
      change (2 ^ 7) with 128 in H. change (2 ^ 52) with (128 * 2 ^ 45) in H.
      lia.
Qed.

(** ** The inverse of gamma *)

(** [1 / g] for a finite [g > 0]: the quotient is at least [2^-1024]. *)
Lemma SFdiv_one_positive (m : positive) (e : Z) :
  bounded prec emax m e = true ->
  positive_float (SF64div SF1 (S754_finite false m e)).
Proof.
  intros Hb. pose proof (bounded_inv m e Hb) as [Hc He].
  pose proof (Zdigits2_bounds (Z.pos m) ltac:(lia)) as B.
  pose proof (Zdigits2_pos (Z.pos m) ltac:(lia)) as P.
  unfold SF64div, SFdiv, SF1, SFdiv_core_binary. cbn [xorb].
  change (Zdigits2 (Z.pos 4503599627370496)) with 53. rewrite fexp_eq.
  set (d := Zdigits2 (Z.pos m)) in *.
  set (e' := Z.min (Z.max (53 + -52 - (d + e) - 53) (-1074)) (-52 - e)).
  set (s := -52 - e - e').
  assert (Hs : 0 < s /\ 0 <= 52 + s - d /\ s + e' = -52 - e) by (unfold s, e'; lia).
  destruct s as [ | ps | ps] eqn:Es; try lia. rewrite <- Es in *.
  rewrite Z.shiftl_mul_pow2 by lia.
  change (Z.pos 4503599627370496) with (2 ^ 52).
  rewrite <- Z.pow_add_r by lia.
  destruct (Z.div_eucl (2 ^ (52 + s)) (Z.pos m)) as [q r] eqn:Hqr.
  assert (Hq : q = 2 ^ (52 + s) / Z.pos m) by (unfold Z.div; rewrite Hqr; reflexivity).
  assert (Hlow : 2 ^ (52 + s - d) <= q).
  { rewrite Hq. apply Z.div_le_lower_bound; [lia | ].
    apply Z.le_trans with (2 ^ d * 2 ^ (52 + s - d)).
    - apply Z.mul_le_mono_nonneg_r; [apply Z.pow_nonneg; lia | lia].
    - rewrite <- Z.pow_add_r by lia. apply Z.pow_le_mono_r; lia. }
  assert (0 < 2 ^ (52 + s - d)) by pow2_pos.
  pose proof (Zdigits2_ge q (52 + s - d) ltac:(lia) Hlow).
  apply binary_round_aux_positive; lia.
Qed.

(** ** On primitive floats *)

Lemma Prim2SF_255 : Prim2SF 255 = SF255.
Proof. reflexivity. Qed.

Lemma Prim2SF_1 : Prim2SF 1 = SF1.
Proof. reflexivity. Qed.

Lemma Prim2SF_0 : Prim2SF 0 = S754_zero false.
Proof. reflexivity. Qed.

Lemma unit_interval_float (p : float) :
  (0 <=? p)%float = true -> (p <=? 1)%float = true ->
  unit_interval (Prim2SF p).
Proof.
  rewrite !leb_spec, Prim2SF_0, Prim2SF_1.
  apply unit_interval_intro, Prim2SF_valid.
Qed.

Lemma trunc_mul_255 (p : float) :
  unit_interval (Prim2SF p) -> trunc (p * 255) = scaled_trunc (Prim2SF p).
Proof.
  intros Hu. unfold trunc. rewrite mul_spec, Prim2SF_255.
  destruct Hu as [s | m e Hb Hle]; [reflexivity | ].
  apply SFtrunc_mul_255; [exact Hb | lia].
Qed.

Lemma byte_valued_mul_255 (p : float) :
  unit_interval (Prim2SF p) -> byte_valued (Prim2SF (p * 255)).
Proof.
  intros Hu. pose proof (Prim2SF_valid (p * 255)) as Hv.
  rewrite mul_spec, Prim2SF_255 in *.
  apply SFmul_255_byte_valued; assumption.
Qed.

Lemma byte_valued_bounds (v : float) :
  byte_valued (Prim2SF v) ->
  (0 <=? v)%float = true /\ (v <=? 255)%float = true /\
  in_uint8_range v = true.
Proof.
  intros Hb. unfold in_uint8_range.
  rewrite !leb_spec, !ltb_spec, Prim2SF_0, Prim2SF_255.
  change (Prim2SF (-1)) with (S754_finite true 4503599627370496 (-52)).
  change (Prim2SF 256) with (S754_finite false 4503599627370496 (-44)).
  destruct Hb as [s | m e Hle].
  - repeat split; reflexivity.
  - split; [reflexivity | ]. split.
    + apply SFleb_pos_finite. change (Z.pos 8972014882652160) with (255 * 2 ^ 45). lia.
    + apply andb_true_intro; split; [reflexivity | ].
      apply SFltb_pos_finite. lia.
Qed.

Lemma positive_finite_float (g : float) :
  (0 <? g)%float = true -> (g <? infinity)%float = true ->
  exists m e, Prim2SF g = S754_finite false m e /\ bounded prec emax m e = true.
Proof.
  rewrite !ltb_spec, Prim2SF_0. pose proof (Prim2SF_valid g) as Hv.
  change (Prim2SF infinity) with (S754_infinity false).
  destruct (Prim2SF g) as [s | s | | s m e]; try discriminate.
  - destruct s; discriminate.
  - destruct s; [discriminate | ]. intros _ _. exists m, e. split; [reflexivity | exact Hv].
Qed.

(** [invGamma = 1.0 / gamma] is positive for a finite positive [gamma]. *)
Lemma inverse_positive (g : float) :
  (0 <? g)%float = true -> (g <? infinity)%float = true ->
  (0 <? 1 / g)%float = true.
Proof.
  intros H0 Hfin.
  destruct (positive_finite_float g H0 Hfin) as (m & e & Hg & Hb).
  rewrite ltb_spec, div_spec, Prim2SF_0, Prim2SF_1, Hg.
  apply positive_float_gt_zero, SFdiv_one_positive, Hb.
Qed.

Lemma positive_nonzero (g : float) :
  (0 <? g)%float = true -> (g =? 0)%float = false.
Proof.
  rewrite ltb_spec, eqb_spec, Prim2SF_0.
  destruct (Prim2SF g) as [s | s | | s m e]; try discriminate.
  - destruct s; [discriminate | reflexivity].
  - destruct s; [discriminate | reflexivity].
Qed.

(** * Lists, tables and images *)

Lemma arange_byte_length : length (arange 0 256) = 256%nat.
Proof. reflexivity. Qed.

Lemma nth_arange_byte (i : Z) :
  0 <= i <= 255 -> nth (Z.to_nat i) (arange 0 256) 0 = i.
Proof.
  intros Hi. unfold arange. change (Z.to_nat (256 - 0)) with 256%nat.
  rewrite nth_indep with (d' := (fun k => 0 + Z.of_nat k) 0%nat)
    by (rewrite length_map, length_seq; lia).
  rewrite (map_nth (fun k => 0 + Z.of_nat k)), seq_nth by lia.
  lia.
Qed.

Lemma In_arange_byte (i : Z) : 0 <= i <= 255 -> In i (arange 0 256).
Proof.
  intros Hi. unfold arange. apply in_map_iff. exists (Z.to_nat i).
  split; [lia | ]. apply in_seq. change (Z.to_nat (256 - 0)) with 256%nat. lia.
Qed.

(** A property checked on the 256 byte values holds of every byte. *)
Lemma forall_byte (P : Z -> bool) :
  forallb P (arange 0 256) = true -> forall i, 0 <= i <= 255 -> P i = true.
Proof.
  intros H i Hi. rewrite forallb_forall in H. apply H, In_arange_byte, Hi.
Qed.

Lemma is_byte_spec (p : Z) : is_byte p = true <-> 0 <= p <= 255.
Proof. unfold is_byte. rewrite andb_true_iff, !Z.leb_le. tauto. Qed.

Lemma valid_pixels_bytes (px : list (list Z)) :
  valid_pixels px = true ->
  forall row, In row px -> forall p, In p row -> 0 <= p <= 255.
Proof.
  unfold valid_pixels. intros H row Hrow p Hp.
  apply andb_prop in H; destruct H as [_ H].
  rewrite forallb_forall in H. specialize (H row Hrow).
  rewrite forallb_forall in H. apply is_byte_spec, H, Hp.
Qed.

Lemma pixel_map (f : Z -> Z) (px : list (list Z)) (r c : nat) :
  pixel (map (map f) px) r c = option_map f (pixel px r c).
Proof.
  unfold pixel. rewrite nth_error_map.
  destruct (nth_error px r) as [row | ]; [ | reflexivity].
  cbn [option_map]. apply nth_error_map.
Qed.

Lemma pixel_In (px : list (list Z)) (r c : nat) (p : Z) :
  pixel px r c = Some p -> exists row, In row px /\ In p row.
Proof.
  unfold pixel. destruct (nth_error px r) as [row | ] eqn:E; [ | discriminate].
  intros H. exists row. split; eapply nth_error_In; eassumption.
Qed.

Lemma shape_map (f : Z -> Z) (px : list (list Z)) :
  shape (map (map f) px) = shape px.
Proof.
  unfold shape. rewrite length_map. destruct px as [ | row rest]; [reflexivity | ].
  cbn [map]. now rewrite length_map.
Qed.

Lemma row_lengths_map (f : Z -> Z) (px : list (list Z)) :
  map (@length Z) (map (map f) px) = map (@length Z) px.
Proof.
  rewrite map_map. apply map_ext. intros row. apply length_map.
Qed.

Lemma forallb_map_comp {A B : Type} (P : B -> bool) (f : A -> B) (l : list A) :
  forallb P (map f l) = forallb (fun x => P (f x)) l.
Proof. induction l as [ | x l IH]; cbn [map forallb]; congruence. Qed.

Lemma rectangular_map (f : Z -> Z) (px : list (list Z)) :
  rectangular (map (map f) px) = rectangular px.
Proof.
  unfold rectangular. rewrite shape_map, forallb_map_comp.
  generalize (snd (shape px)). intros n.
  induction px as [ | row rest IH]; [reflexivity | ].
  cbn [forallb]. now rewrite length_map, IH.
Qed.

Lemma wrap8_byte (z : Z) : 0 <= wrap8 z <= 255.
Proof. unfold wrap8. pose proof (Z.mod_pos_bound z 256 ltac:(lia)). lia. Qed.

Lemma wrap8_small (z : Z) : 0 <= z <= 255 -> wrap8 z = z.
Proof. intros Hz. unfold wrap8. apply Z.mod_small. lia. Qed.

Lemma clamp8_small (z : Z) : 0 <= z <= 255 -> clamp8 z = z.
Proof. unfold clamp8. lia. Qed.

Section Program.

Variable pow : float -> float -> float.
Variable cast_oob : float -> Z.

Lemma gamma_table_length (invGamma : float) :
  length (gamma_table pow cast_oob invGamma) = 256%nat.
Proof. unfold gamma_table. now rewrite length_map, arange_byte_length. Qed.

Lemma nth_gamma_table (invGamma : float) (i : Z) :
  0 <= i <= 255 ->
  nth (Z.to_nat i) (gamma_table pow cast_oob invGamma) 0 =
  astype_uint8 cast_oob (gamma_value pow invGamma i).
Proof.
  intros Hi. unfold gamma_table.
  rewrite nth_indep with (d' := astype_uint8 cast_oob (gamma_value pow invGamma 0))
    by (rewrite length_map, arange_byte_length; lia).
  rewrite (map_nth (fun i => astype_uint8 cast_oob (gamma_value pow invGamma i))).
  now rewrite nth_arange_byte.
Qed.

Lemma lookup_gamma_table (invGamma : float) (p : Z) :
  0 <= p <= 255 ->
  lookup (gamma_table pow cast_oob invGamma) 0 p =
  astype_uint8 cast_oob (gamma_value pow invGamma p).
Proof.
  intros Hp. unfold lookup. rewrite Z.add_0_r. now apply nth_gamma_table.
Qed.

Lemma gamma_table_bytes (invGamma : float) (n : nat) :
  0 <= nth n (gamma_table pow cast_oob invGamma) 0 <= 255.
Proof.
  destruct (nth_in_or_default n (gamma_table pow cast_oob invGamma) 0) as [H | H].
  - unfold gamma_table in H at 2. apply in_map_iff in H.
    destruct H as (i & <- & _). apply wrap8_byte.
  - rewrite H. lia.
Qed.

(** On an unsigned 8-bit array the call is the lookup, item by item. *)
Lemma cv2_LUT_gray (px : list (list Z)) (invGamma : float) :
  cv2_LUT (Gray uint8 px) (gamma_table pow cast_oob invGamma) =
  Ok (Gray uint8 (map (map (lookup (gamma_table pow cast_oob invGamma) 0)) px)).
Proof. unfold cv2_LUT. cbn [dtype_of lut_offset]. now rewrite gamma_table_length. Qed.

Lemma adjust_gamma_gray (px : list (list Z)) (gamma : float) :
  (gamma =? 0)%float = false ->
  adjust_gamma pow cast_oob (Gray uint8 px) gamma =
  Ok (Gray uint8
        (map (map (lookup (gamma_table pow cast_oob (1 / gamma)) 0)) px)).
Proof. intros Hg. unfold adjust_gamma. rewrite Hg. apply cv2_LUT_gray. Qed.

Lemma positive_gamma_inv (gamma : float) :
  positive_gamma gamma = true ->
  (gamma =? 0)%float = false /\ (0 <? 1 / gamma)%float = true.
Proof.
  unfold positive_gamma. intros H; apply andb_prop in H; destruct H as [H0 Hf].
  split; [now apply positive_nonzero | now apply inverse_positive].
Qed.

(** The 256 quotients [i / 255.0] lie in the unit interval, in order. *)
Lemma quotient_unit_interval (i : Z) :
  0 <= i <= 255 ->
  (0 <=? float_of_int i / 255)%float = true /\
  (float_of_int i / 255 <=? 1)%float = true.
Proof.
  intros Hi. apply andb_prop.
  revert i Hi.
  apply (forall_byte (fun i => (0 <=? float_of_int i / 255)%float
                               && (float_of_int i / 255 <=? 1)%float)).
  vm_compute. reflexivity.
Qed.

Lemma quotient_monotone (a b : Z) :
  0 <= a -> a <= b -> b <= 255 ->
  (float_of_int a / 255 <=? float_of_int b / 255)%float = true.
Proof.
  intros Ha Hab Hb.
  assert (H : forallb (fun a => forallb (fun b =>
                (b <? a) || (float_of_int a / 255 <=? float_of_int b / 255)%float)
                (arange 0 256)) (arange 0 256) = true) by (vm_compute; reflexivity).
  pose proof (forall_byte _ H a ltac:(lia)) as H1. cbv beta in H1.
  pose proof (forall_byte _ H1 b ltac:(lia)) as H2. cbv beta in H2.
  apply orb_prop in H2. destruct H2 as [H2 | H2]; [ | exact H2].
  apply Z.ltb_lt in H2. lia.
Qed.

(** In the unit interval the cast truncates: nothing wraps. *)
Lemma astype_uint8_scaled (p : float) :
  unit_interval (Prim2SF p) ->
  astype_uint8 cast_oob (p * 255) = trunc (p * 255) /\
  0 <= trunc (p * 255) <= 255.
Proof.
  intros Hu.
  destruct (byte_valued_bounds _ (byte_valued_mul_255 p Hu)) as (_ & _ & Hr).
  assert (Hb : 0 <= trunc (p * 255) <= 255).
  { rewrite trunc_mul_255 by exact Hu. split.
    - apply scaled_trunc_nonneg.
    - apply scaled_trunc_le_255, Hu. }
  split; [ | exact Hb].
  unfold astype_uint8. rewrite Hr. apply wrap8_small, Hb.
Qed.

Lemma gamma_power_unit_interval (invGamma : float) (i : Z) :
  pow_unit_interval pow -> (0 <? invGamma)%float = true -> 0 <= i <= 255 ->
  unit_interval (Prim2SF (pow (float_of_int i / 255) invGamma)).
Proof.
  intros Hpow Hy Hi.
  destruct (quotient_unit_interval i Hi) as [H0 H1].
  destruct (Hpow _ _ H0 H1 Hy) as [P0 P1].
  now apply unit_interval_float.
Qed.

Lemma gamma_table_entry (invGamma : float) (i : Z) :
  pow_unit_interval pow -> (0 <? invGamma)%float = true -> 0 <= i <= 255 ->
  nth (Z.to_nat i) (gamma_table pow cast_oob invGamma) 0 =
  trunc (gamma_value pow invGamma i) /\
  0 <= trunc (gamma_value pow invGamma i) <= 255.
Proof.
  intros Hpow Hy Hi. rewrite nth_gamma_table by exact Hi.
  unfold gamma_value. apply astype_uint8_scaled.
  now apply gamma_power_unit_interval.
Qed.

End Program.
(** * The reference powers meet the assumptions *)

Lemma pow_ref_exponent_one : pow_exponent_one pow_ref.
Proof. intros x. reflexivity. Qed.

Lemma pow_ref_base_zero : pow_base_zero pow_ref.
Proof. intros y _. unfold pow_ref. destruct (y =? 1)%float; reflexivity. Qed.

Lemma pow_ref_base_one : pow_base_one pow_ref.
Proof. intros y. unfold pow_ref. destruct (y =? 1)%float; reflexivity. Qed.

Lemma pow_ref_unit_interval : pow_unit_interval pow_ref.
Proof.
  intros x y H0 H1 _. unfold pow_ref.
  destruct (y =? 1)%float; [split; assumption | ].
  destruct (1 <=? x)%float; split; reflexivity.
Qed.

Lemma pow_ref_monotone : pow_monotone pow_ref.
Proof.
  intros x x' y H0 Hxx H1 _. unfold pow_ref.
  destruct (y =? 1)%float; [assumption | ].
  destruct (1 <=? x)%float eqn:E; destruct (1 <=? x')%float eqn:E';
    try reflexivity.
  rewrite leb_spec, Prim2SF_1 in E, E'. rewrite leb_spec in Hxx.
  rewrite (SFleb_one_trans _ _ E Hxx) in E'. discriminate.
Qed.




(** * The claims *)



(** C2, as the code has it: a gamma of zero raises [ZeroDivisionError] at
    the division, before any table is built and whatever the image, the
    power function and the cast are; a gamma of -1.0 raises nothing and an
    image comes back. *)
Theorem adjust_gamma_nonpositive
  (pw : float -> float -> float) (oob : float -> Z) :
  (forall image, adjust_gamma pw oob image 0 = Raise ZeroDivisionError) /\
  (forall px, exists out,
     adjust_gamma pw oob (Gray uint8 px) (-1) = Ok (Gray uint8 out) /\
     shape out = shape px).
Proof.
  split.
  - intros image. reflexivity.
  - intros px. eexists. split.
    + apply adjust_gamma_gray. reflexivity.
    + apply shape_map.
Qed.

(** C2 fails at gamma = -1.0: no power function and no cast make the call
    on the scenario's image raise an error. *)
Lemma negative_gamma_not_rejected :
  ~ exists pw oob e,
      adjust_gamma pw oob (Gray uint8 [[0; 128]; [255; 64]]) (-1) = Raise e.
Proof.
  intros (pw & oob & e & H).
  rewrite adjust_gamma_gray in H by reflexivity. discriminate.
Qed.

(** C3: at gamma = 1.0 the output is the input, bit for bit. *)
Theorem adjust_gamma_identity
  (pw : float -> float -> float) (oob : float -> Z) (px : list (list Z)) :
  valid_pixels px = true -> pow_exponent_one pw ->
  adjust_gamma pw oob (Gray uint8 px) 1 = Ok (Gray uint8 px).
Proof.
  intros Hpx Hpow. rewrite adjust_gamma_gray by reflexivity.
  do 2 f_equal.
  rewrite <- (map_id px) at 2. apply map_ext_in. intros row Hrow.
  rewrite <- (map_id row) at 2. apply map_ext_in. intros p Hp.
  pose proof (valid_pixels_bytes px Hpx row Hrow p Hp) as Hb.
  rewrite lookup_gamma_table by exact Hb.
  change (1 / 1)%float with 1%float. unfold gamma_value. rewrite Hpow.
  apply Z.eqb_eq. clear Hp. revert p Hb.
  apply (forall_byte
           (fun i => astype_uint8 oob (float_of_int i / 255 * 255) =? i)).
  vm_compute. reflexivity.
Qed.

Lemma adjust_gamma_identity_witness :
  adjust_gamma pow_ref cast_zero (Gray uint8 [[0; 128]; [255; 64]]) 1
  = Ok (Gray uint8 [[0; 128]; [255; 64]]).
Proof.
  apply (adjust_gamma_identity pow_ref cast_zero [[0; 128]; [255; 64]]).
  - reflexivity.
  - exact pow_ref_exponent_one.
Defined.

(** C4: for a valid image and a finite gamma > 0 the output has the rows
    and columns of the input and every sample of it lies in [0,255]. *)
Theorem adjust_gamma_shape_range
  (pw : float -> float -> float) (oob : float -> Z)
  (px : list (list Z)) (gamma : float) :
  valid_pixels px = true -> positive_gamma gamma = true ->
  exists out,
    adjust_gamma pw oob (Gray uint8 px) gamma = Ok (Gray uint8 out) /\
    shape out = shape px /\
    map (@length Z) out = map (@length Z) px /\
    valid_pixels out = true /\
    forall r c q, pixel out r c = Some q -> 0 <= q <= 255.
Proof.
  intros Hpx Hg.
  destruct (positive_gamma_inv gamma Hg) as [Hnz _].
  set (table := gamma_table pw oob (1 / gamma)).
  exists (map (map (lookup table 0)) px).
  split; [now apply adjust_gamma_gray | ].
  split; [apply shape_map | ].
  split; [apply row_lengths_map | ].
  assert (Hbytes : forallb (forallb is_byte) (map (map (lookup table 0)) px) = true).
  { rewrite forallb_map_comp. apply forallb_forall. intros row _.
    rewrite forallb_map_comp. apply forallb_forall. intros p _.
    apply is_byte_spec, gamma_table_bytes. }
  split.
  - unfold valid_pixels. rewrite rectangular_map, Hbytes.
    unfold valid_pixels in Hpx. apply andb_prop in Hpx. now rewrite (proj1 Hpx).
  - intros r c q Hq. rewrite pixel_map in Hq.
    destruct (pixel px r c) as [p | ]; [ | discriminate].
    injection Hq as <-. apply gamma_table_bytes.
Qed.

Lemma adjust_gamma_shape_range_witness :
  exists out,
    adjust_gamma pow_half cast_zero (Gray uint8 [[0; 128]; [255; 64]]) 2
    = Ok (Gray uint8 out) /\
    shape out = shape [[0; 128]; [255; 64]] /\
    map (@length Z) out = map (@length Z) [[0; 128]; [255; 64]] /\
    valid_pixels out = true /\
    forall r c q, pixel out r c = Some q -> 0 <= q <= 255.
Proof.
  apply (adjust_gamma_shape_range pow_half cast_zero [[0; 128]; [255; 64]] 2).
  - reflexivity.
  - reflexivity.
Defined.

(** C5: for a finite gamma > 0 the table is non-decreasing, given a power
    function that is non-decreasing in its base and keeps the unit
    interval. *)
Theorem gamma_table_monotone
  (pw : float -> float -> float) (oob : float -> Z) (gamma : float) (a b : Z) :
  positive_gamma gamma = true ->
  pow_unit_interval pw -> pow_monotone pw ->
  0 <= a -> a <= b -> b <= 255 ->
  nth (Z.to_nat a) (gamma_table pw oob (1 / gamma)) 0
  <= nth (Z.to_nat b) (gamma_table pw oob (1 / gamma)) 0.
Proof.
  intros Hg Hunit Hmono Ha Hab Hb.
  destruct (positive_gamma_inv gamma Hg) as [_ Hinv].
  destruct (gamma_table_entry pw oob _ a Hunit Hinv ltac:(lia)) as [-> _].
  destruct (gamma_table_entry pw oob _ b Hunit Hinv ltac:(lia)) as [-> _].
  pose proof (gamma_power_unit_interval pw _ a Hunit Hinv ltac:(lia)) as Ua.
  pose proof (gamma_power_unit_interval pw _ b Hunit Hinv ltac:(lia)) as Ub.
  unfold gamma_value. rewrite !trunc_mul_255 by assumption.
  apply scaled_trunc_mono; try assumption.
  rewrite <- leb_spec.
  destruct (quotient_unit_interval a ltac:(lia)) as [A0 _].
  destruct (quotient_unit_interval b ltac:(lia)) as [_ B1].
  apply Hmono; try assumption. now apply quotient_monotone.
Qed.

Lemma gamma_table_monotone_witness :
  nth (Z.to_nat 64) (gamma_table pow_ref cast_zero (1 / 1)) 0
  <= nth (Z.to_nat 128) (gamma_table pow_ref cast_zero (1 / 1)) 0.
Proof.
  apply (gamma_table_monotone pow_ref cast_zero 1 64 128).
  - reflexivity.
  - exact pow_ref_unit_interval.
  - exact pow_ref_monotone.
  - lia.
  - lia.
  - lia.
Defined.







(** C9: for a finite gamma > 0 the table has 0 at index 0 and 255 at index
    255, so black and white samples are left as they are, given a power
    function exact at the bases 0 and 1. *)
Theorem gamma_table_extremes
  (pw : float -> float -> float) (oob : float -> Z) (gamma : float) :
  positive_gamma gamma = true ->
  pow_base_zero pw -> pow_base_one pw ->
  nth 0 (gamma_table pw oob (1 / gamma)) 0 = 0 /\
  nth 255 (gamma_table pw oob (1 / gamma)) 0 = 255 /\
  forall px, exists out,
    adjust_gamma pw oob (Gray uint8 px) gamma = Ok (Gray uint8 out) /\
    forall r c p, pixel px r c = Some p -> p = 0 \/ p = 255 ->
      pixel out r c = Some p.
Proof.
  intros Hg Hzero Hone.
  destruct (positive_gamma_inv gamma Hg) as [Hnz Hinv].
  assert (T0 : lookup (gamma_table pw oob (1 / gamma)) 0 0 = 0).
  { rewrite lookup_gamma_table by lia. unfold gamma_value.
    change (float_of_int 0 / 255)%float with 0%float.
    rewrite Hzero by exact Hinv. vm_compute. reflexivity. }
  assert (T255 : lookup (gamma_table pw oob (1 / gamma)) 0 255 = 255).
  { rewrite lookup_gamma_table by lia. unfold gamma_value.
    change (float_of_int 255 / 255)%float with 1%float.
    rewrite Hone. vm_compute. reflexivity. }
  split; [exact T0 | ]. split; [exact T255 | ].
  intros px. eexists. split; [now apply adjust_gamma_gray | ].
  intros r c p Hp Hbw. rewrite pixel_map, Hp. cbn [option_map].
  destruct Hbw as [-> | ->]; [now rewrite T0 | now rewrite T255].
Qed.

Lemma gamma_table_extremes_witness :
  nth 0 (gamma_table pow_ref cast_zero (1 / 1)) 0 = 0 /\
  nth 255 (gamma_table pow_ref cast_zero (1 / 1)) 0 = 255 /\
  forall px, exists out,
    adjust_gamma pow_ref cast_zero (Gray uint8 px) 1 = Ok (Gray uint8 out) /\
    forall r c p, pixel px r c = Some p -> p = 0 \/ p = 255 ->
      pixel out r c = Some p.
Proof.
  apply (gamma_table_extremes pow_ref cast_zero 1).
  - reflexivity.
  - exact pow_ref_base_zero.
  - exact pow_ref_base_one.
Defined.

(** The finiteness of gamma matters: [1.0 / inf] is 0, and with
    [pow(x, 0) = 1] every entry of the table is 255, the one at index 0
    included. *)
Remark infinite_gamma_table
  (pw : float -> float -> float) (oob : float -> Z) (i : Z) :
  (forall x, pw x 0%float = 1%float) -> 0 <= i <= 255 ->
  nth (Z.to_nat i) (gamma_table pw oob (1 / infinity)) 0 = 255.
Proof.
  intros Hpow Hi. rewrite nth_gamma_table by exact Hi.
  change (1 / infinity)%float with 0%float. unfold gamma_value.
  rewrite Hpow. vm_compute. reflexivity.
Qed.

(** C10: for a finite gamma > 0 and [i] in [0,255], the value before the
    cast lies in [0,255]; the cast is then defined, yields the truncation
    without wrapping, and agrees with clamping. *)
Theorem gamma_value_fits_byte
  (pw : float -> float -> float) (oob : float -> Z) (gamma : float) (i : Z) :
  positive_gamma gamma = true -> pow_unit_interval pw -> 0 <= i <= 255 ->
  let v := gamma_value pw (1 / gamma) i in
  (0 <=? v)%float = true /\ (v <=? 255)%float = true /\
  in_uint8_range v = true /\
  astype_uint8 oob v = trunc v /\
  astype_uint8 oob v = clamp8 (trunc v).
Proof.
  intros Hg Hunit Hi v.
  destruct (positive_gamma_inv gamma Hg) as [_ Hinv].
  pose proof (gamma_power_unit_interval pw _ i Hunit Hinv Hi) as Hu.
  destruct (byte_valued_bounds _ (byte_valued_mul_255 _ Hu)) as (H0 & H255 & Hr).
  destruct (astype_uint8_scaled oob _ Hu) as [Hcast Hb].
  repeat split; try assumption.
  unfold v, gamma_value. rewrite Hcast. symmetry. apply clamp8_small, Hb.
Qed.

Lemma gamma_value_fits_byte_witness :
  let v := gamma_value pow_ref (1 / 1) 128 in
  (0 <=? v)%float = true /\ (v <=? 255)%float = true /\
  in_uint8_range v = true /\
  astype_uint8 cast_zero v = trunc v /\
  astype_uint8 cast_zero v = clamp8 (trunc v).
Proof.
  apply (gamma_value_fits_byte pow_ref cast_zero 1 128).
  - reflexivity.
  - exact pow_ref_unit_interval.
  - lia.
Defined.
(** * Histograms, statistics and the page *)

(** ** Sums and counts *)

Lemma Zsum_cons (a : Z) (l : list Z) : Zsum (a :: l) = a + Zsum l.
Proof. reflexivity. Qed.

Lemma Zsum_map_add {A : Type} (a b : A -> Z) (l : list A) :
  Zsum (map (fun k => a k + b k) l) = Zsum (map a l) + Zsum (map b l).
Proof.
  induction l as [ | k l IH]; [reflexivity | ].
  cbn [map]. rewrite !Zsum_cons, IH. lia.
Qed.

Lemma Zsum_map_ext_in {A : Type} (a b : A -> Z) (l : list A) :
  (forall k, In k l -> a k = b k) -> Zsum (map a l) = Zsum (map b l).
Proof. intros H. f_equal. now apply map_ext_in. Qed.

Lemma Zsum_map_zero {A : Type} (l : list A) : Zsum (map (fun _ => 0) l) = 0.
Proof.
  induction l as [ | k l IH]; [reflexivity | ].
  cbn [map]. now rewrite Zsum_cons, IH.
Qed.

Lemma arange_byte_NoDup : NoDup (arange 0 256).
Proof.
  replace (arange 0 256) with (nodup Z.eq_dec (arange 0 256))
    by (vm_compute; reflexivity).
  apply NoDup_nodup.
Qed.

(** A sum in which one index alone contributes. *)
Lemma Zsum_single {A : Type} (eqb : A -> A -> bool) (g : A -> Z) (s : A) (l : list A) :
  (forall u, eqb u s = true <-> u = s) -> NoDup l -> In s l ->
  Zsum (map (fun u => if eqb u s then g u else 0) l) = g s.
Proof.
  intros Heq Hnd Hin. induction l as [ | u l IH]; [contradiction | ].
  cbn [map]. rewrite Zsum_cons. inversion Hnd as [ | ? ? Hu Hl]; subst.
  destruct Hin as [-> | Hin].
  - rewrite (proj2 (Heq s) eq_refl).
    assert (E : Zsum (map (fun u => if eqb u s then g u else 0) l) = 0).
    { transitivity (Zsum (map (fun _ : A => 0) l)); [ | apply Zsum_map_zero].
      apply Zsum_map_ext_in. intros k Hk.
      destruct (eqb k s) eqn:Ek; [ | reflexivity].
      apply Heq in Ek. subst k. contradiction. }
    lia.
  - destruct (eqb u s) eqn:Eu.
    + apply Heq in Eu. subst u. contradiction.
    + rewrite IH by assumption. lia.
Qed.

Lemma in_bin_byte (k s : Z) :
  0 <= k <= 255 -> 0 <= s <= 255 -> in_bin k s = (k =? s).
Proof.
  intros Hk Hs. unfold in_bin.
  destruct (Z.eqb_spec k s) as [-> | N].
  - rewrite Z.leb_refl. rewrite (proj2 (Z.ltb_lt s (s + 1))) by lia. reflexivity.
  - rewrite (proj2 (Z.eqb_neq s 256)) by lia. rewrite andb_false_r, orb_false_r.
    destruct (Z.leb_spec k s); destruct (Z.ltb_spec s (k + 1)); try reflexivity; lia.
Qed.

Lemma length_hist (x : list Z) : length (hist x) = 256%nat.
Proof. unfold hist. now rewrite length_map, arange_byte_length. Qed.

Lemma nth_hist (x : list Z) (k : Z) :
  0 <= k <= 255 ->
  nth (Z.to_nat k) (hist x) 0 = Z.of_nat (length (filter (in_bin k) x)).
Proof.
  intros Hk. unfold hist.
  rewrite nth_indep with (d' := Z.of_nat (length (filter (in_bin 0) x)))
    by (rewrite length_map, arange_byte_length; lia).
  rewrite (map_nth (fun k => Z.of_nat (length (filter (in_bin k) x)))).
  now rewrite nth_arange_byte.
Qed.

Lemma arange_byte_In (k : Z) : In k (arange 0 256) -> 0 <= k <= 255.
Proof.
  unfold arange. intros H. apply in_map_iff in H. destruct H as (n & <- & Hn).
  apply in_seq in Hn. change (Z.to_nat (256 - 0)) with 256%nat in Hn. lia.
Qed.

Lemma count_cons (p : Z -> bool) (s : Z) (l : list Z) :
  Z.of_nat (length (filter p (s :: l))) =
  (if p s then 1 else 0) + Z.of_nat (length (filter p l)).
Proof. cbn [filter]. destruct (p s); cbn [length]; lia. Qed.

(** A byte falls in one bin. *)
Lemma one_bin (s : Z) :
  0 <= s <= 255 ->
  Zsum (map (fun k => if in_bin k s then 1 else 0) (arange 0 256)) = 1.
Proof.
  intros Hs.
  rewrite (Zsum_map_ext_in _ (fun k => if k =? s then (fun _ => 1) k else 0)).
  - apply (Zsum_single Z.eqb (fun _ => 1) s).
    + intros u. apply Z.eqb_eq.
    + apply arange_byte_NoDup.
    + now apply In_arange_byte.
  - intros k Hk. rewrite in_bin_byte; [reflexivity | now apply arange_byte_In | exact Hs].
Qed.

Lemma Zsum_hist (x : list Z) :
  forallb is_byte x = true -> Zsum (hist x) = Z.of_nat (length x).
Proof.
  induction x as [ | s x IH]; intros Hx.
  - unfold hist. cbn [filter length Z.of_nat]. apply Zsum_map_zero.
  - cbn [forallb] in Hx. apply andb_prop in Hx. destruct Hx as [Hs Hx].
    apply is_byte_spec in Hs. specialize (IH Hx). unfold hist in *.
    rewrite (Zsum_map_ext_in _
               (fun k => (if in_bin k s then 1 else 0)
                         + Z.of_nat (length (filter (in_bin k) x))))
      by (intros k _; apply count_cons).
    rewrite Zsum_map_add, one_bin, IH by exact Hs. cbn [length]. lia.
Qed.

Lemma ravel_bytes (px : list (list Z)) :
  forallb (forallb is_byte) px = true -> forallb is_byte (concat px) = true.
Proof.
  induction px as [ | row px IH]; [reflexivity | ].
  cbn [forallb concat]. intros H. apply andb_prop in H. destruct H as [Hr Hp].
  rewrite forallb_app, Hr, IH by exact Hp. reflexivity.
Qed.

Lemma length_concat_rectangular (px : list (list Z)) (n : nat) :
  forallb (fun row => Nat.eqb (length row) n) px = true ->
  length (concat px) = (length px * n)%nat.
Proof.
  induction px as [ | row px IH]; [reflexivity | ].
  cbn [forallb concat length]. intros H. apply andb_prop in H. destruct H as [Hr Hp].
  apply Nat.eqb_eq in Hr. rewrite length_app, IH by exact Hp. lia.
Qed.

(** X1: the histogram of a valid image has 256 bars, bar [k] counts the
    pixels of intensity [k], and the bars add up to rows times columns. *)
Theorem plot_histogram_counts
  (px : list (list Z)) (title : String.string) :
  valid_pixels px = true ->
  let bars := fig_bars (plot_histogram (Gray uint8 px) title) in
  length bars = 256%nat /\
  (forall k, 0 <= k <= 255 ->
     nth (Z.to_nat k) bars 0 = Z.of_nat (count_occ Z.eq_dec (concat px) k)) /\
  Zsum bars = Z.of_nat (fst (shape px) * snd (shape px)).
Proof.
  intros Hpx bars. unfold bars, plot_histogram; cbn [fig_bars ravel].
  unfold valid_pixels in Hpx. apply andb_prop in Hpx. destruct Hpx as [Hrect Hbytes].
  pose proof (ravel_bytes px Hbytes) as Hb.
  split; [apply length_hist | ]. split.
  - intros k Hk. rewrite nth_hist by exact Hk. f_equal.
    clear Hrect Hbytes. induction (concat px) as [ | s l IH]; [reflexivity | ].
    cbn [forallb] in Hb. apply andb_prop in Hb. destruct Hb as [Hs Hl].
    apply is_byte_spec in Hs. cbn [filter count_occ].
    rewrite in_bin_byte by assumption.
    destruct (Z.eq_dec s k) as [-> | N].
    + rewrite Z.eqb_refl. cbn [length]. now rewrite IH.
    + rewrite (proj2 (Z.eqb_neq k s)) by congruence. now apply IH.
  - rewrite Zsum_hist by exact Hb. f_equal.
    unfold rectangular in Hrect.
    now rewrite (length_concat_rectangular px (snd (shape px)) Hrect).
Qed.

Lemma plot_histogram_counts_witness :
  let bars := fig_bars (plot_histogram (Gray uint8 [[0; 128]; [255; 64]])
                                       String.EmptyString) in
  length bars = 256%nat /\
  (forall k, 0 <= k <= 255 ->
     nth (Z.to_nat k) bars 0
     = Z.of_nat (count_occ Z.eq_dec (concat [[0; 128]; [255; 64]]) k)) /\
  Zsum bars = Z.of_nat (fst (shape [[0; 128]; [255; 64]])
                        * snd (shape [[0; 128]; [255; 64]])).
Proof.
  apply (plot_histogram_counts [[0; 128]; [255; 64]] String.EmptyString).
  reflexivity.
Defined.

(** ** The histogram and the statistics of the corrected image *)

(** Counting after a byte-to-byte map: bin [v] collects the bins mapped
    to [v]. *)
Lemma count_map_bytes (f : Z -> Z) (l : list Z) (v : Z) :
  (forall u, 0 <= f u <= 255) -> forallb is_byte l = true -> 0 <= v <= 255 ->
  Z.of_nat (length (filter (in_bin v) (map f l))) =
  Zsum (map (fun u => if f u =? v
                      then Z.of_nat (length (filter (in_bin u) l)) else 0)
            (arange 0 256)).
Proof.
  intros Hf Hl Hv. induction l as [ | s l IH].
  - cbn [map filter length Z.of_nat]. symmetry.
    transitivity (Zsum (map (fun _ : Z => 0) (arange 0 256)));
      [ | apply Zsum_map_zero].
    apply Zsum_map_ext_in. intros u _. now destruct (f u =? v).
  - cbn [forallb] in Hl. apply andb_prop in Hl. destruct Hl as [Hs Hl].
    apply is_byte_spec in Hs. specialize (IH Hl).
    cbn [map]. rewrite count_cons, IH.
    rewrite (Zsum_map_ext_in
               (fun u => if f u =? v
                         then Z.of_nat (length (filter (in_bin u) (s :: l))) else 0)
               (fun u => (if u =? s then (fun w => if f w =? v then 1 else 0) u else 0)
                         + (if f u =? v
                            then Z.of_nat (length (filter (in_bin u) l)) else 0))).
    + rewrite Zsum_map_add.
      rewrite (Zsum_single Z.eqb (fun w => if f w =? v then 1 else 0) s);
        [ | intros u; apply Z.eqb_eq | apply arange_byte_NoDup
          | now apply In_arange_byte ].
      rewrite in_bin_byte by (try apply Hf; assumption).
      rewrite (Z.eqb_sym v (f s)). reflexivity.
    + intros u Hu. apply arange_byte_In in Hu. rewrite count_cons.
      rewrite in_bin_byte by assumption.
      destruct (f u =? v); destruct (u =? s); lia.
Qed.

Lemma lookup_gamma_table_byte
  (pw : float -> float -> float) (oob : float -> Z) (invGamma : float) (u : Z) :
  0 <= lookup (gamma_table pw oob invGamma) 0 u <= 255.
Proof. unfold lookup. apply gamma_table_bytes. Qed.

(** X2: the histogram of the corrected image is the histogram of the
    original pushed through the table: bar [v] of the one is the sum of the
    bars [u] of the other with [table[u] = v]. *)
Theorem histogram_pushed_through_table
  (pw : float -> float -> float) (oob : float -> Z)
  (px : list (list Z)) (gamma : float) (title title' : String.string) :
  valid_pixels px = true -> (gamma =? 0)%float = false ->
  let table := gamma_table pw oob (1 / gamma) in
  let before := fig_bars (plot_histogram (Gray uint8 px) title) in
  exists processed_img,
    adjust_gamma pw oob (Gray uint8 px) gamma = Ok processed_img /\
    forall v, 0 <= v <= 255 ->
      nth (Z.to_nat v) (fig_bars (plot_histogram processed_img title')) 0 =
      Zsum (map (fun u => if nth (Z.to_nat u) table 0 =? v
                          then nth (Z.to_nat u) before 0 else 0)
                (arange 0 256)).
Proof.
  intros Hpx Hg table before.
  eexists. split; [now apply adjust_gamma_gray | ].
  intros v Hv. unfold plot_histogram; cbn [fig_bars ravel].
  rewrite nth_hist by exact Hv. rewrite <- concat_map.
  unfold valid_pixels in Hpx. apply andb_prop in Hpx. destruct Hpx as [_ Hbytes].
  rewrite (count_map_bytes _ _ v (lookup_gamma_table_byte pw oob _)
             (ravel_bytes px Hbytes) Hv).
  apply Zsum_map_ext_in. intros u Hu. apply arange_byte_In in Hu.
  unfold before, plot_histogram; cbn [fig_bars ravel].
  rewrite nth_hist by exact Hu. unfold lookup, table. now rewrite Z.add_0_r.
Qed.

Lemma histogram_pushed_through_table_witness :
  let table := gamma_table pow_half cast_zero (1 / 2) in
  let before := fig_bars (plot_histogram (Gray uint8 [[0; 128]; [255; 64]])
                                         String.EmptyString) in
  exists processed_img,
    adjust_gamma pow_half cast_zero (Gray uint8 [[0; 128]; [255; 64]]) 2
    = Ok processed_img /\
    forall v, 0 <= v <= 255 ->
      nth (Z.to_nat v)
          (fig_bars (plot_histogram processed_img String.EmptyString)) 0 =
      Zsum (map (fun u => if nth (Z.to_nat u) table 0 =? v
                          then nth (Z.to_nat u) before 0 else 0)
                (arange 0 256)).
Proof.
  apply (histogram_pushed_through_table pow_half cast_zero
           [[0; 128]; [255; 64]] 2 String.EmptyString String.EmptyString).
  - reflexivity.
  - reflexivity.
Defined.

(** The table is non-decreasing for a positive exponent. *)
Lemma gamma_table_nondecreasing
  (pw : float -> float -> float) (oob : float -> Z) (invGamma : float) (a b : Z) :
  pow_unit_interval pw -> pow_monotone pw -> (0 <? invGamma)%float = true ->
  0 <= a -> a <= b -> b <= 255 ->
  nth (Z.to_nat a) (gamma_table pw oob invGamma) 0
  <= nth (Z.to_nat b) (gamma_table pw oob invGamma) 0.
Proof.
  intros Hunit Hmono Hinv Ha Hab Hb.
  destruct (gamma_table_entry pw oob _ a Hunit Hinv ltac:(lia)) as [-> _].
  destruct (gamma_table_entry pw oob _ b Hunit Hinv ltac:(lia)) as [-> _].
  pose proof (gamma_power_unit_interval pw _ a Hunit Hinv ltac:(lia)) as Ua.
  pose proof (gamma_power_unit_interval pw _ b Hunit Hinv ltac:(lia)) as Ub.
  unfold gamma_value. rewrite !trunc_mul_255 by assumption.
  apply scaled_trunc_mono; try assumption.
  rewrite <- leb_spec.
  destruct (quotient_unit_interval a ltac:(lia)) as [A0 _].
  destruct (quotient_unit_interval b ltac:(lia)) as [_ B1].
  apply Hmono; try assumption. now apply quotient_monotone.
Qed.

(** A non-decreasing map of bytes commutes with the least and the greatest
    item. *)
Lemma fold_min_map (f : Z -> Z) (l : list Z) (a : Z) :
  (forall x y, 0 <= x -> x <= y -> y <= 255 -> f x <= f y) ->
  0 <= a <= 255 -> forallb is_byte l = true ->
  fold_left Z.min (map f l) (f a) = f (fold_left Z.min l a) /\
  0 <= fold_left Z.min l a <= 255.
Proof.
  intros Hf. revert a. induction l as [ | s l IH]; intros a Ha Hl.
  - split; [reflexivity | exact Ha].
  - cbn [forallb] in Hl. apply andb_prop in Hl. destruct Hl as [Hs Hl].
    apply is_byte_spec in Hs. cbn [map fold_left].
    assert (E : Z.min (f a) (f s) = f (Z.min a s)).
    { destruct (Z.le_ge_cases a s) as [L | G].
      - rewrite (Z.min_l a s L). apply Z.min_l, Hf; lia.
      - rewrite (Z.min_r a s) by lia. apply Z.min_r, Hf; lia. }
    rewrite E. apply IH; [lia | exact Hl].
Qed.

Lemma fold_max_map (f : Z -> Z) (l : list Z) (a : Z) :
  (forall x y, 0 <= x -> x <= y -> y <= 255 -> f x <= f y) ->
  0 <= a <= 255 -> forallb is_byte l = true ->
  fold_left Z.max (map f l) (f a) = f (fold_left Z.max l a) /\
  0 <= fold_left Z.max l a <= 255.
Proof.
  intros Hf. revert a. induction l as [ | s l IH]; intros a Ha Hl.
  - split; [reflexivity | exact Ha].
  - cbn [forallb] in Hl. apply andb_prop in Hl. destruct Hl as [Hs Hl].
    apply is_byte_spec in Hs. cbn [map fold_left].
    assert (E : Z.max (f a) (f s) = f (Z.max a s)).
    { destruct (Z.le_ge_cases a s) as [L | G].
      - rewrite (Z.max_r a s L). apply Z.max_r, Hf; lia.
      - rewrite (Z.max_l a s) by lia. apply Z.max_l, Hf; lia. }
    rewrite E. apply IH; [lia | exact Hl].
Qed.

(** X3: the least and the greatest intensity of the corrected image, which
    the caption shows, are the table's entries at the least and the
    greatest intensity of the original, given a power function that is
    non-decreasing in its base and keeps the unit interval. *)
Theorem statistics_of_corrected
  (pw : float -> float -> float) (oob : float -> Z)
  (px : list (list Z)) (gamma : float) (lo hi : Z) :
  valid_pixels px = true -> positive_gamma gamma = true ->
  pow_unit_interval pw -> pow_monotone pw ->
  np_min (Gray uint8 px) = Reduced lo -> np_max (Gray uint8 px) = Reduced hi ->
  let table := gamma_table pw oob (1 / gamma) in
  exists processed_img,
    adjust_gamma pw oob (Gray uint8 px) gamma = Ok processed_img /\
    np_min processed_img = Reduced (nth (Z.to_nat lo) table 0) /\
    np_max processed_img = Reduced (nth (Z.to_nat hi) table 0) /\
    0 <= lo <= hi /\ hi <= 255.
Proof.
  intros Hpx Hg Hunit Hmono Hlo Hhi table.
  destruct (positive_gamma_inv gamma Hg) as [Hnz Hinv].
  eexists. split; [now apply adjust_gamma_gray | ].
  unfold valid_pixels in Hpx. apply andb_prop in Hpx. destruct Hpx as [_ Hbytes].
  pose proof (ravel_bytes px Hbytes) as Hb.
  unfold np_min, np_max, reduce in *. cbn [ravel] in *. rewrite <- concat_map.
  destruct (concat px) as [ | a l]; [discriminate | ].
  cbn [forallb] in Hb. apply andb_prop in Hb. destruct Hb as [Ha Hl].
  apply is_byte_spec in Ha. injection Hlo as <-. injection Hhi as <-.
  assert (Hf : forall x y, 0 <= x -> x <= y -> y <= 255 ->
             lookup table 0 x <= lookup table 0 y).
  { intros x y Hx Hxy Hy. unfold lookup. rewrite !Z.add_0_r.
    now apply gamma_table_nondecreasing. }
  destruct (fold_min_map _ l a Hf Ha Hl) as [Emin Bmin].
  destruct (fold_max_map _ l a Hf Ha Hl) as [Emax Bmax].
  cbn [map]. fold table. rewrite Emin, Emax. unfold lookup. rewrite !Z.add_0_r.
  split; [reflexivity | ]. split; [reflexivity | ].
  assert (fold_left Z.min l a <= a).
  { clear. revert a. induction l as [ | s l IH]; intros a; cbn [fold_left]; [lia | ].
    specialize (IH (Z.min a s)). lia. }
  assert (a <= fold_left Z.max l a).
  { clear. revert a. induction l as [ | s l IH]; intros a; cbn [fold_left]; [lia | ].
    specialize (IH (Z.max a s)). lia. }
  lia.
Qed.

Lemma statistics_of_corrected_witness :
  let table := gamma_table pow_ref cast_zero (1 / 1) in
  exists processed_img,
    adjust_gamma pow_ref cast_zero (Gray uint8 [[7; 128]; [255; 64]]) 1
    = Ok processed_img /\
    np_min processed_img = Reduced (nth (Z.to_nat 7) table 0) /\
    np_max processed_img = Reduced (nth (Z.to_nat 255) table 0) /\
    0 <= 7 <= 255 /\ 255 <= 255.
Proof.
  apply (statistics_of_corrected pow_ref cast_zero [[7; 128]; [255; 64]] 1 7 255).
  - reflexivity.
  - reflexivity.
  - exact pow_ref_unit_interval.
  - exact pow_ref_monotone.
  - reflexivity.
  - reflexivity.
Defined.

(** ** Levels in use *)

Lemma length_filter_map {A B : Type} (p : B -> bool) (g : A -> B) (l : list A) :
  length (filter p (map g l)) = length (filter (fun k => p (g k)) l).
Proof.
  induction l as [ | k l IH]; [reflexivity | ].
  cbn [map filter]. destruct (p (g k)); cbn [length]; now rewrite IH.
Qed.

Lemma count_positive (p : Z -> bool) (l : list Z) :
  0 < Z.of_nat (length (filter p l)) <-> exists s, In s l /\ p s = true.
Proof.
  split.
  - destruct (filter p l) as [ | s r] eqn:E; [cbn; lia | ]. intros _.
    exists s. apply filter_In. rewrite E. now left.
  - intros (s & Hs & Hp).
    assert (H : In s (filter p l)) by (apply filter_In; now split).
    destruct (filter p l); [contradiction | cbn [length]; lia].
Qed.

(** A byte-to-byte map does not bring more levels into use. *)
Lemma occupied_map (f : Z -> Z) (l : list Z) :
  (forall u, 0 <= f u <= 255) -> forallb is_byte l = true ->
  (occupied (hist (map f l)) <= occupied (hist l))%nat.
Proof.
  intros Hf Hl. unfold occupied, hist. rewrite !length_filter_map.
  set (used := fun x k => 0 <? Z.of_nat (length (filter (in_bin k) x))).
  change (length (filter (used (map f l)) (arange 0 256))
          <= length (filter (used l) (arange 0 256)))%nat.
  rewrite <- (length_map f (filter (used l) (arange 0 256))).
  apply NoDup_incl_length.
  - apply NoDup_filter, arange_byte_NoDup.
  - intros v Hv. apply filter_In in Hv. destruct Hv as [Hv Hu].
    apply arange_byte_In in Hv. unfold used in Hu. apply Z.ltb_lt in Hu.
    apply count_positive in Hu. destruct Hu as (y & Hy & Hbin).
    apply in_map_iff in Hy. destruct Hy as (s & <- & Hs).
    rewrite in_bin_byte in Hbin by (try apply Hf; assumption).
    apply Z.eqb_eq in Hbin. subst v.
    apply in_map, filter_In.
    rewrite forallb_forall in Hl. pose proof (Hl s Hs) as Hb.
    apply is_byte_spec in Hb.
    split; [now apply In_arange_byte | ].
    unfold used. apply Z.ltb_lt, count_positive. exists s.
    split; [exact Hs | ]. rewrite in_bin_byte by assumption. apply Z.eqb_refl.
Qed.

(** X4: the correction never brings more intensity levels into use: the
    corrected image's histogram has at most as many non-empty bins as the
    original's. *)
Theorem corrected_levels_in_use
  (pw : float -> float -> float) (oob : float -> Z)
  (px : list (list Z)) (gamma : float) (title title' : String.string) :
  valid_pixels px = true -> (gamma =? 0)%float = false ->
  exists processed_img,
    adjust_gamma pw oob (Gray uint8 px) gamma = Ok processed_img /\
    Nat.le
      (occupied (fig_bars (plot_histogram processed_img title')))
      (occupied (fig_bars (plot_histogram (Gray uint8 px) title))).
Proof.
  intros Hpx Hg.
  eexists. split; [now apply adjust_gamma_gray | ].
  unfold plot_histogram; cbn [fig_bars ravel]. rewrite <- concat_map.
  unfold valid_pixels in Hpx. apply andb_prop in Hpx. destruct Hpx as [_ Hbytes].
  apply occupied_map; [apply lookup_gamma_table_byte | now apply ravel_bytes].
Qed.

Lemma corrected_levels_in_use_witness :
  exists processed_img,
    adjust_gamma pow_half cast_zero (Gray uint8 [[0; 128]; [255; 64]]) 2
    = Ok processed_img /\
    Nat.le
      (occupied (fig_bars (plot_histogram processed_img String.EmptyString)))
      (occupied (fig_bars (plot_histogram (Gray uint8 [[0; 128]; [255; 64]])
                                          String.EmptyString))).
Proof.
  apply (corrected_levels_in_use pow_half cast_zero [[0; 128]; [255; 64]] 2
           String.EmptyString String.EmptyString).
  - reflexivity.
  - reflexivity.
Defined.

(** ** The slider and the note *)

Lemma slider_range_positive (gamma_val : float) :
  slider_range gamma_val = true -> positive_gamma gamma_val = true.
Proof.
  unfold slider_range, positive_gamma. intros H. apply andb_prop in H.
  destruct H as [Hlo Hhi]. rewrite leb_spec in Hlo, Hhi.
  rewrite !ltb_spec, Prim2SF_0.
  change (Prim2SF infinity) with (S754_infinity false).
  change (Prim2SF 0x1.999999999999ap-4)
    with (S754_finite false 7205759403792794 (-56)) in Hlo.
  change (Prim2SF 3) with (S754_finite false 6755399441055744 (-51)) in Hhi.
  destruct (Prim2SF gamma_val) as [s | [ | ] | | [ | ] m e]; try discriminate.
  reflexivity.
Qed.

Lemma one_by_comparison (g : float) :
  (g <? 1)%float = false -> (1 <? g)%float = false ->
  (0 <? g)%float = true -> (g <? infinity)%float = true -> g = 1%float.
Proof.
  intros Hlt Hgt H0 Hfin.
  destruct (positive_finite_float g H0 Hfin) as (m & e & Hg & _).
  rewrite ltb_spec, Hg, Prim2SF_1 in Hlt, Hgt. unfold SF1 in *.
  apply Prim2SF_inj. rewrite Hg, Prim2SF_1. unfold SF1.
  assert (Hl : ~ (e < -52 \/ (e = -52 /\ Z.pos m < Z.pos 4503599627370496))).
  { intros C. apply SFltb_pos_finite in C. congruence. }
  assert (Hr : ~ (-52 < e \/ (-52 = e /\ Z.pos 4503599627370496 < Z.pos m))).
  { intros C. apply SFltb_pos_finite in C. congruence. }
  assert (E : e = -52 /\ Z.pos m = Z.pos 4503599627370496) by lia.
  destruct E as [-> E]. injection E as ->. reflexivity.
Qed.

(** With [pow(x, 1) = x] the table at exponent one is the identity. *)
Lemma lookup_identity_table
  (pw : float -> float -> float) (oob : float -> Z) (p : Z) :
  pow_exponent_one pw -> 0 <= p <= 255 ->
  lookup (gamma_table pw oob 1) 0 p = p.
Proof.
  intros Hpow Hp. rewrite lookup_gamma_table by exact Hp.
  unfold gamma_value. rewrite Hpow. apply Z.eqb_eq. revert p Hp.
  apply (forall_byte
           (fun i => astype_uint8 oob (float_of_int i / 255 * 255) =? i)).
  vm_compute. reflexivity.
Qed.

Lemma valid_pixels_map_lookup
  (pw : float -> float -> float) (oob : float -> Z)
  (invGamma : float) (px : list (list Z)) :
  valid_pixels px = true ->
  valid_pixels (map (map (lookup (gamma_table pw oob invGamma) 0)) px) = true.
Proof.
  intros Hpx. unfold valid_pixels in *. apply andb_prop in Hpx.
  rewrite rectangular_map, (proj1 Hpx). cbn [andb].
  rewrite forallb_map_comp. apply forallb_forall. intros row _.
  rewrite forallb_map_comp. apply forallb_forall. intros p _.
  apply is_byte_spec, gamma_table_bytes.
Qed.

Lemma reduce_bytes (l : list Z) :
  forallb is_byte l = true -> l <> [] ->
  exists lo hi,
    reduce Z.min l = Reduced lo /\ reduce Z.max l = Reduced hi /\
    0 <= lo /\ lo <= hi /\ hi <= 255.
Proof.
  intros Hl Hne. destruct l as [ | a l]; [congruence | ].
  cbn [forallb] in Hl. apply andb_prop in Hl. destruct Hl as [Ha Hl].
  apply is_byte_spec in Ha.
  assert (Hid : forall x y : Z, 0 <= x -> x <= y -> y <= 255 -> x <= y) by auto.
  destruct (fold_min_map (fun x => x) l a Hid Ha Hl) as [_ Bmin].
  destruct (fold_max_map (fun x => x) l a Hid Ha Hl) as [_ Bmax].
  exists (fold_left Z.min l a), (fold_left Z.max l a).
  repeat split; try lia.
  assert (fold_left Z.min l a <= a).
  { clear. revert a. induction l as [ | s l IH]; intros a; cbn [fold_left]; [lia | ].
    specialize (IH (Z.min a s)). lia. }
  assert (a <= fold_left Z.max l a).
  { clear. revert a. induction l as [ | s l IH]; intros a; cbn [fold_left]; [lia | ].
    specialize (IH (Z.max a s)). lia. }
  lia.
Qed.

(** X5: with a value of the slider and a decoded image of at least one
    pixel, nothing the page computes raises: the correction returns a valid
    image of the same shape, both histograms add up to the same number of
    pixels, and the caption's least and greatest intensity exist and are
    bytes. *)
Theorem page_within_slider_range
  (pw : float -> float -> float) (oob : float -> Z)
  (px : list (list Z)) (gamma_val : float) (title title' : String.string) :
  valid_pixels px = true -> (0 < fst (shape px) * snd (shape px))%nat ->
  slider_range gamma_val = true ->
  exists out lo hi,
    adjust_gamma pw oob (Gray uint8 px) gamma_val = Ok (Gray uint8 out) /\
    valid_pixels out = true /\ shape out = shape px /\
    Zsum (fig_bars (plot_histogram (Gray uint8 out) title')) =
    Zsum (fig_bars (plot_histogram (Gray uint8 px) title)) /\
    np_min (Gray uint8 out) = Reduced lo /\
    np_max (Gray uint8 out) = Reduced hi /\
    0 <= lo /\ lo <= hi /\ hi <= 255.
Proof.
  intros Hpx Hne Hs.
  destruct (positive_gamma_inv _ (slider_range_positive _ Hs)) as [Hnz _].
  set (table := gamma_table pw oob (1 / gamma_val)).
  pose proof (valid_pixels_map_lookup pw oob (1 / gamma_val) px Hpx) as Hout.
  fold table in Hout.
  assert (Hb : forall qx, valid_pixels qx = true ->
             forallb is_byte (concat qx) = true /\
             length (concat qx) = (fst (shape qx) * snd (shape qx))%nat).
  { intros qx Hq. unfold valid_pixels in Hq. apply andb_prop in Hq.
    destruct Hq as [Hr Hq]. split; [now apply ravel_bytes | ].
    now apply length_concat_rectangular. }
  destruct (Hb px Hpx) as [Bpx Lpx]. destruct (Hb _ Hout) as [Bout Lout].
  rewrite shape_map in Lout.
  destruct (reduce_bytes _ Bout) as (lo & hi & Hlo & Hhi & Hrange).
  { intros E. rewrite E in Lout. cbn [length] in Lout. lia. }
  exists (map (map (lookup table 0)) px), lo, hi.
  split; [now apply adjust_gamma_gray | ].
  split; [exact Hout | ]. split; [apply shape_map | ].
  split.
  - unfold plot_histogram; cbn [fig_bars ravel].
    rewrite !Zsum_hist by assumption. now rewrite Lout, Lpx.
  - unfold np_min, np_max; cbn [ravel]. tauto.
Qed.

Lemma page_within_slider_range_witness :
  exists out lo hi,
    adjust_gamma pow_half cast_zero (Gray uint8 [[0; 128]; [255; 64]]) 2
    = Ok (Gray uint8 out) /\
    valid_pixels out = true /\ shape out = shape [[0; 128]; [255; 64]] /\
    Zsum (fig_bars (plot_histogram (Gray uint8 out) String.EmptyString)) =
    Zsum (fig_bars (plot_histogram (Gray uint8 [[0; 128]; [255; 64]])
                                   String.EmptyString)) /\
    np_min (Gray uint8 out) = Reduced lo /\
    np_max (Gray uint8 out) = Reduced hi /\
    0 <= lo /\ lo <= hi /\ hi <= 255.
Proof.
  apply (page_within_slider_range pow_half cast_zero [[0; 128]; [255; 64]] 2
           String.EmptyString String.EmptyString).
  - reflexivity.
  - cbn. lia.
  - reflexivity.
Defined.

(** X6: for a value of the slider, the note "No correction applied" is
    shown exactly when gamma is 1.0, and then, with [pow(x, 1) = x], the
    image shown as corrected is the original. *)
Theorem success_note_means_unchanged
  (pw : float -> float -> float) (oob : float -> Z)
  (px : list (list Z)) (gamma_val : float) :
  valid_pixels px = true -> slider_range gamma_val = true ->
  pow_exponent_one pw ->
  (diagnostic gamma_val = st_success <-> gamma_val = 1%float) /\
  (diagnostic gamma_val = st_success ->
   adjust_gamma pw oob (Gray uint8 px) gamma_val = Ok (Gray uint8 px)).
Proof.
  intros Hpx Hs Hpow.
  pose proof (slider_range_positive _ Hs) as Hg.
  unfold positive_gamma in Hg. apply andb_prop in Hg. destruct Hg as [H0 Hfin].
  assert (Hone : diagnostic gamma_val = st_success -> gamma_val = 1%float).
  { unfold diagnostic.
    destruct (gamma_val <? 1)%float eqn:Hlt; [discriminate | ].
    destruct (1 <? gamma_val)%float eqn:Hgt; [discriminate | ].
    intros _. now apply one_by_comparison. }
  split.
  - split; [exact Hone | intros ->; reflexivity].
  - intros Hd. rewrite (Hone Hd).
    rewrite adjust_gamma_gray by reflexivity.
    change (1 / 1)%float with 1%float. do 2 f_equal.
    rewrite <- (map_id px) at 2. apply map_ext_in. intros row Hrow.
    rewrite <- (map_id row) at 2. apply map_ext_in. intros p Hp.
    apply lookup_identity_table; [exact Hpow | ].
    exact (valid_pixels_bytes px Hpx row Hrow p Hp).
Qed.

Lemma success_note_means_unchanged_witness :
  (diagnostic 1 = st_success <-> 1%float = 1%float) /\
  (diagnostic 1 = st_success ->
   adjust_gamma pow_ref cast_zero (Gray uint8 [[0; 128]; [255; 64]]) 1
   = Ok (Gray uint8 [[0; 128]; [255; 64]])).
Proof.
  apply (success_note_means_unchanged pow_ref cast_zero [[0; 128]; [255; 64]] 1).
  - reflexivity.
  - reflexivity.
  - exact pow_ref_exponent_one.
Defined.

(** ** The reciprocal of gamma compared with one *)

Lemma shr_fexp_magnitude (M E : Z) (l : location) :
  0 < M -> -1073 <= Zdigits2 M + E ->
  0 < shr_m (fst (shr_fexp prec emax M E l)) /\
  Zdigits2 M + E <= Zdigits2 (shr_m (fst (shr_fexp prec emax M E l)))
                    + snd (shr_fexp prec emax M E l).
Proof.
  intros HM Hd. unfold shr_fexp, shr. rewrite fexp_eq.
  destruct (Z.max (Zdigits2 M + E - 53) (-1074) - E) as [ | p | p] eqn:En;
    cbn [fst snd]; rewrite ?shr_record_of_loc_m; try (split; [assumption | lia]).
  rewrite iter_pos_nat, shr_m_iter, shr_record_of_loc_m, positive_nat_Z
    by (rewrite shr_record_of_loc_m; lia).
  pose proof (Zdigits2_bounds M HM) as B. pose proof (Zdigits2_pos M HM) as P.
  assert (Hp : Z.pos p <= Zdigits2 M - 1) by lia.
  assert (HN : 0 < 2 ^ Z.pos p) by pow2_pos.
  assert (Hq : 2 ^ (Zdigits2 M - 1 - Z.pos p) <= M / 2 ^ Z.pos p).
  { apply Z.div_le_lower_bound; [exact HN | ].
    rewrite <- Z.pow_add_r by lia.
    replace (Z.pos p + (Zdigits2 M - 1 - Z.pos p)) with (Zdigits2 M - 1) by lia.
    lia. }
  assert (0 < 2 ^ (Zdigits2 M - 1 - Z.pos p)) by pow2_pos.
  split; [lia | ].
  pose proof (Zdigits2_ge (M / 2 ^ Z.pos p) (Zdigits2 M - 1 - Z.pos p) ltac:(lia) Hq).
  lia.
Qed.

(** Rounding does not lower the order of magnitude. *)
Lemma binary_round_aux_magnitude (M E : Z) (l : location) :
  0 < M -> -1073 <= Zdigits2 M + E ->
  match binary_round_aux prec emax false M E l with
  | S754_infinity false => True
  | S754_finite false m e => Zdigits2 M + E <= Zdigits2 (Z.pos m) + e
  | _ => False
  end.
Proof.
  intros HM Hd. unfold binary_round_aux.
  pose proof (shr_fexp_magnitude M E l HM Hd) as [H1 H2].
  destruct (shr_fexp prec emax M E l) as [mrs' e']. cbn [fst snd] in *.
  pose proof (round_nearest_even_ge (shr_m mrs') (loc_of_shr_record mrs')) as Hr.
  set (M' := round_nearest_even (shr_m mrs') (loc_of_shr_record mrs')) in *.
  pose proof (Zdigits2_le (shr_m mrs') M' H1 Hr) as Hdd.
  pose proof (shr_fexp_magnitude M' e' loc_Exact ltac:(lia) ltac:(lia)) as [H3 H4].
  destruct (shr_fexp prec emax M' e' loc_Exact) as [mrs'' e'']. cbn [fst snd] in *.
  destruct (shr_m mrs'') as [ | m'' | m'']; try lia.
  destruct (e'' <=? emax - prec); [lia | exact I].
Qed.

Lemma loc_of_shr_record_of_loc (M : Z) (l : location) :
  loc_of_shr_record (shr_record_of_loc M l) = l.
Proof. destruct l as [ | [ | | ] ]; reflexivity. Qed.

Lemma round_nearest_even_le (m : Z) (l : location) :
  round_nearest_even m l <= m + 1.
Proof. destruct l as [ | [ | | ] ]; cbn; try destruct (Z.even m); lia. Qed.

(** Rounding a mantissa that is already in place: it stays, or goes up by
    one, and a carry out of 53 bits moves to the next exponent. *)
Lemma binary_round_aux_canonical (M E : Z) (l : location) :
  0 < M < 2 ^ 53 -> -1074 <= E <= 970 ->
  Z.max (Zdigits2 M + E - 53) (-1074) = E ->
  exists m'' e'',
    binary_round_aux prec emax false M E l = S754_finite false m'' e'' /\
    ((e'' = E /\ M <= Z.pos m'' <= M + 1 /\ Z.pos m'' < 2 ^ 53) \/
     (e'' = E + 1 /\ Z.pos m'' = 2 ^ 52)).
Proof.
  intros HM HE Hcan. unfold binary_round_aux, shr_fexp. rewrite fexp_eq, Hcan.
  rewrite Z.sub_diag. cbn [shr].
  rewrite shr_record_of_loc_m, loc_of_shr_record_of_loc.
  pose proof (round_nearest_even_ge M l) as Hge.
  pose proof (round_nearest_even_le M l) as Hle.
  set (M' := round_nearest_even M l) in *.
  destruct (Z.eq_dec M' (2 ^ 53)) as [Ecarry | Ncarry].
  - rewrite Ecarry.
    replace (Zdigits2 (2 ^ 53)) with 54 by reflexivity.
    rewrite fexp_eq.
    replace (Z.max (54 + E - 53) (-1074) - E) with 1 by lia.
    exists 4503599627370496%positive, (E + 1).
    cbn [shr shr_record_of_loc iter_pos shr_1 shr_m].
    replace (2 ^ 53) with 9007199254740992 by reflexivity.
    cbn [shr_1 shr_m].
    replace (E + 1 <=? emax - prec) with true
      by (symmetry; apply Z.leb_le; unfold emax, prec; lia).
    split; [reflexivity | right; split; reflexivity].
  - assert (HM' : 0 < M' < 2 ^ 53) by lia.
    assert (Hd' : Zdigits2 M' <= 53).
    { pose proof (Zdigits2_bounds M' ltac:(lia)) as B.
      apply Z.lt_succ_r, Z.lt_pred_lt_succ, (Z.pow_lt_mono_r_iff 2); lia. }
    rewrite fexp_eq.
    destruct M' as [ | m' | m'] eqn:EM'; try lia.
    exists m', E.
    destruct (Z.max (Zdigits2 (Z.pos m') + E - 53) (-1074) - E) as [ | q | q] eqn:En;
      try lia; cbn [shr shr_record_of_loc shr_m];
      (replace (E <=? emax - prec) with true
        by (symmetry; apply Z.leb_le; unfold emax, prec; lia));
      (split; [reflexivity | left; lia]).
Qed.

Lemma binary_round_aux_pow2 (E : Z) :
  -1074 <= E <= 969 ->
  binary_round_aux prec emax false (2 ^ 53) E loc_Exact =
  S754_finite false 4503599627370496 (E + 1).
Proof.
  intros HE. unfold binary_round_aux, shr_fexp.
  replace (Zdigits2 (2 ^ 53)) with 54 by reflexivity.
  rewrite fexp_eq. replace (Z.max (54 + E - 53) (-1074) - E) with 1 by lia.
  replace (2 ^ 53) with 9007199254740992 by reflexivity.
  cbn [shr shr_record_of_loc iter_pos shr_1 shr_m loc_of_shr_record
       round_nearest_even orb].
  replace (Zdigits2 4503599627370496) with 53 by reflexivity.
  rewrite fexp_eq.
  replace (Z.max (53 + (E + 1) - 53) (-1074) - (E + 1)) with 0 by lia.
  cbn [shr shr_record_of_loc shr_m].
  replace (E + 1 <=? emax - prec) with true
    by (symmetry; apply Z.leb_le; unfold emax, prec; lia).
  reflexivity.
Qed.

(** The quotient that [1 / g] rounds, for a finite positive [g]. *)
Lemma SFdiv_core_one (m : positive) (e : Z) :
  let e' := Z.min (Z.max (53 + -52 - (Zdigits2 (Z.pos m) + e) - 53) (-1074))
                  (-52 - e) in
  let s := -52 - e - e' in
  0 < s ->
  SFdiv_core_binary prec emax 4503599627370496 (-52) (Z.pos m) e =
  (2 ^ (52 + s) / Z.pos m, e',
   new_location (Z.pos m) (2 ^ (52 + s) mod Z.pos m)).
Proof.
  intros e' s Hs. unfold SFdiv_core_binary.
  change (Zdigits2 4503599627370496) with 53. rewrite fexp_eq.
  fold e'. fold s.
  destruct s as [ | ps | ps] eqn:Es; try lia. rewrite <- Es in *.
  rewrite Z.shiftl_mul_pow2 by lia.
  change 4503599627370496 with (2 ^ 52) at 1.
  rewrite <- Z.pow_add_r by lia.
  unfold Z.div, Z.modulo.
  destruct (Z.div_eucl (2 ^ (52 + s)) (Z.pos m)) as [q r]. reflexivity.
Qed.

Lemma SFdiv_one_magnitude (m : positive) (e : Z) :
  bounded prec emax m e = true ->
  match SF64div SF1 (S754_finite false m e) with
  | S754_infinity false => True
  | S754_finite false m'' e'' =>
      1 - (Zdigits2 (Z.pos m) + e) <= Zdigits2 (Z.pos m'') + e''
  | _ => False
  end.
Proof.
  intros Hb. pose proof (bounded_inv m e Hb) as [Hc He].
  pose proof (Zdigits2_bounds (Z.pos m) ltac:(lia)) as B.
  pose proof (Zdigits2_pos (Z.pos m) ltac:(lia)) as P.
  unfold SF64div, SFdiv, SF1. cbn [xorb].
  pose proof (SFdiv_core_one m e) as Hcore. cbv zeta in Hcore.
  set (d := Zdigits2 (Z.pos m)) in *.
  set (e' := Z.min (Z.max (53 + -52 - (d + e) - 53) (-1074)) (-52 - e)) in *.
  set (s := -52 - e - e') in *.
  assert (Hs : 0 < s /\ 0 <= 52 + s - d /\ s + e' = -52 - e) by (unfold s, e'; lia).
  rewrite Hcore by lia.
  set (q := 2 ^ (52 + s) / Z.pos m).
  assert (Hlow : 2 ^ (52 + s - d) <= q).
  { unfold q. apply Z.div_le_lower_bound; [lia | ].
    apply Z.le_trans with (2 ^ d * 2 ^ (52 + s - d)).
    - apply Z.mul_le_mono_nonneg_r; [apply Z.pow_nonneg; lia | lia].
    - rewrite <- Z.pow_add_r by lia. apply Z.pow_le_mono_r; lia. }
  assert (0 < 2 ^ (52 + s - d)) by pow2_pos.
  pose proof (Zdigits2_ge q (52 + s - d) ltac:(lia) Hlow) as Hdq.
  pose proof (binary_round_aux_magnitude q e'
                (new_location (Z.pos m) (2 ^ (52 + s) mod Z.pos m))
                ltac:(lia) ltac:(lia)) as Hm.
  destruct (binary_round_aux prec emax false q e' _) as [ | [ | ] | | [ | ] m'' e''];
    try exact Hm. lia.
Qed.

Lemma SFdiv_one_le_one (m : positive) (e : Z) :
  bounded prec emax m e = true ->
  -52 < e \/ (e = -52 /\ 2 ^ 52 <= Z.pos m) ->
  SFleb (SF64div SF1 (S754_finite false m e)) SF1 = true.
Proof.
  intros Hb Hge. pose proof (bounded_inv m e Hb) as [Hc He].
  pose proof (bounded_normal m e Hb ltac:(lia)) as Hlo.
  pose proof (bounded_mantissa m e Hb) as Hhi.
  assert (Hd : Zdigits2 (Z.pos m) = 53) by (apply Zdigits2_unique; lia).
  unfold SF64div, SFdiv. unfold SF1 at 1. cbn [xorb].
  pose proof (SFdiv_core_one m e) as Hcore. cbv zeta in Hcore.
  rewrite Hd in Hcore.
  set (e' := Z.min (Z.max (53 + -52 - (53 + e) - 53) (-1074)) (-52 - e)) in *.
  set (s := -52 - e - e') in *.
  destruct (Z.le_gt_cases e 969) as [Hsmall | Hbig].
  - assert (Es : s = 53) by (unfold s, e'; lia).
    assert (Ee' : e' = -105 - e) by (unfold e'; lia).
    rewrite Hcore by lia. rewrite Es, Ee'. change (52 + 53) with 105.
    destruct (Z.eq_dec (Z.pos m) (2 ^ 52)) as [Epow | Npow].
    + change (2 ^ 52) with (Z.pos 4503599627370496) in Epow.
      injection Epow as ->.
      change (2 ^ 105 / Z.pos 4503599627370496) with (2 ^ 53).
      change (new_location (Z.pos 4503599627370496)
                (2 ^ 105 mod Z.pos 4503599627370496)) with loc_Exact.
      rewrite binary_round_aux_pow2 by lia.
      apply SFleb_pos_finite. lia.
    + set (q := 2 ^ 105 / Z.pos m).
      assert (Hq : 2 ^ 52 <= q < 2 ^ 53).
      { unfold q. split.
        - apply Z.div_le_lower_bound; [lia | ].
          change (2 ^ 105) with (2 ^ 53 * 2 ^ 52). nia.
        - apply Z.div_lt_upper_bound; [lia | ].
          change (2 ^ 105) with (2 ^ 52 * 2 ^ 53).
          change (2 ^ 52) with 4503599627370496 in *.
          change (2 ^ 53) with 9007199254740992 in *. nia. }
      assert (Hdq : Zdigits2 q = 53) by (apply Zdigits2_unique; lia).
      destruct (binary_round_aux_canonical q (-105 - e)
                  (new_location (Z.pos m) (2 ^ 105 mod Z.pos m)))
        as (m'' & e'' & -> & Hcases); try lia.
      apply SFleb_pos_finite.
      change (Z.pos 4503599627370496) with (2 ^ 52). lia.
  - assert (Ee' : e' = -1074) by (unfold e'; lia).
    assert (Es : s = 1022 - e) by (unfold s; lia).
    rewrite Hcore by lia. rewrite Es, Ee'.
    assert (Ecases : e = 970 \/ e = 971) by lia.
    set (q := 2 ^ (52 + (1022 - e)) / Z.pos m).
    assert (Hq : 0 < q <= 2 ^ 52).
    { unfold q. destruct Ecases as [-> | ->].
      - change (52 + (1022 - 970)) with 104. split.
        + apply Z.div_str_pos.
          change (2 ^ 104) with (2 ^ 51 * 2 ^ 53). split; [lia | ].
          change (2 ^ 51) with 2251799813685248. lia.
        + apply Z.div_le_upper_bound; [lia | ].
          change (2 ^ 104) with (2 ^ 52 * 2 ^ 52).
          change (2 ^ 52) with 4503599627370496 in *. nia.
      - change (52 + (1022 - 971)) with 103. split.
        + apply Z.div_str_pos.
          change (2 ^ 103) with (2 ^ 50 * 2 ^ 53). split; [lia | ].
          change (2 ^ 50) with 1125899906842624. lia.
        + apply Z.div_le_upper_bound; [lia | ].
          change (2 ^ 103) with (2 ^ 51 * 2 ^ 52).
          change (2 ^ 52) with 4503599627370496 in *.
          change (2 ^ 51) with 2251799813685248. nia. }
    assert (Hdq : Zdigits2 q <= 53).
    { pose proof (Zdigits2_bounds q ltac:(lia)) as B.
      apply Z.lt_succ_r, Z.lt_pred_lt_succ, (Z.pow_lt_mono_r_iff 2); [lia | lia | ].
      change (2 ^ 53) with (2 * 2 ^ 52). lia. }
    destruct (binary_round_aux_canonical q (-1074)
                (new_location (Z.pos m) (2 ^ (52 + (1022 - e)) mod Z.pos m)))
      as (m'' & e'' & -> & Hcases);
      [change (2 ^ 53) with (2 * 2 ^ 52); lia | lia | lia | ].
    apply SFleb_pos_finite. lia.
Qed.

Lemma inverse_ge_one (g : float) :
  (0 <? g)%float = true -> (g <=? 1)%float = true ->
  (1 <=? 1 / g)%float = true.
Proof.
  intros H0 H1. pose proof (Prim2SF_valid g) as Hv.
  pose proof (Prim2SF_valid (1 / g)) as Hvr.
  rewrite leb_spec, div_spec, Prim2SF_1. rewrite div_spec, Prim2SF_1 in Hvr.
  rewrite ltb_spec, Prim2SF_0 in H0. rewrite leb_spec, Prim2SF_1 in H1.
  destruct (Prim2SF g) as [s | s | | s m e]; try discriminate.
  - destruct s; discriminate.
  - destruct s; [discriminate | ]. cbn [valid_binary] in Hv.
    apply SFleb_pos_finite in H1.
    pose proof (bounded_inv m e Hv) as [Hc _].
    destruct (Z.eq_dec e (-52)) as [-> | Ne].
    + pose proof (bounded_normal m (-52) Hv ltac:(lia)) as Hn.
      assert (E : Z.pos m = Z.pos 4503599627370496).
      { change (Z.pos 4503599627370496) with (2 ^ 52) in *. lia. }
      injection E as ->. reflexivity.
    + pose proof (SFdiv_one_magnitude m e Hv) as Hm.
      pose proof (bounded_mantissa m e Hv) as Hm53.
      pose proof (Zdigits2_bounds (Z.pos m) ltac:(lia)) as B.
      destruct (SF64div SF1 (S754_finite false m e))
        as [ | [ | ] | | [ | ] m'' e'']; try contradiction; [reflexivity | ].
      cbn [valid_binary] in Hvr.
      pose proof (bounded_inv m'' e'' Hvr) as [Hc'' _].
      pose proof (Zdigits2_bounds (Z.pos m'') ltac:(lia)) as B''.
      assert (Hd'' : Zdigits2 (Z.pos m'') = 53) by lia.
      rewrite Hd'' in B''. change (53 - 1) with 52 in B''.
      apply SFleb_pos_finite. change (Z.pos 4503599627370496) with (2 ^ 52). lia.
Qed.

Lemma inverse_le_one (g : float) :
  (1 <=? g)%float = true -> (g <? infinity)%float = true ->
  (1 / g <=? 1)%float = true.
Proof.
  intros H1 Hfin. pose proof (Prim2SF_valid g) as Hv.
  rewrite leb_spec, div_spec, Prim2SF_1.
  rewrite leb_spec, Prim2SF_1 in H1. rewrite ltb_spec in Hfin.
  change (Prim2SF infinity) with (S754_infinity false) in Hfin.
  destruct (Prim2SF g) as [s | s | | s m e]; try discriminate.
  - destruct s; discriminate.
  - destruct s; [discriminate | ]. cbn [valid_binary] in Hv.
    apply SFleb_pos_finite in H1.
    apply SFdiv_one_le_one; [exact Hv | ].
    change (Z.pos 4503599627370496) with (2 ^ 52) in H1. lia.
Qed.

(** ** Which way the correction moves the intensities *)

Lemma one_le_positive (y : float) :
  (1 <=? y)%float = true -> (0 <? y)%float = true.
Proof.
  rewrite leb_spec, ltb_spec, Prim2SF_1, Prim2SF_0.
  destruct (Prim2SF y) as [s | [ | ] | | [ | ] m e]; try discriminate; reflexivity.
Qed.

Lemma leb_refl_nonneg (x : float) :
  (0 <=? x)%float = true -> (x <=? x)%float = true.
Proof.
  rewrite !leb_spec, Prim2SF_0.
  destruct (Prim2SF x) as [s | [ | ] | | [ | ] m e]; try discriminate;
    try reflexivity.
  intros _. apply SFleb_pos_finite. lia.
Qed.

Lemma pow_ref_shrinks : pow_shrinks pow_ref.
Proof.
  intros x y H0 H1 _. unfold pow_ref.
  destruct (y =? 1)%float; [now apply leb_refl_nonneg | ].
  destruct (1 <=? x)%float eqn:E; [exact E | exact H0].
Qed.

Lemma pow_ceil_unit_interval : pow_unit_interval pow_ceil.
Proof.
  intros x y H0 H1 _. unfold pow_ceil.
  destruct (y =? 1)%float; [split; assumption | ].
  destruct (x <=? 0)%float; split; reflexivity.
Qed.

Lemma pow_ceil_grows : pow_grows pow_ceil.
Proof.
  intros x y H0 H1 _ _. unfold pow_ceil.
  destruct (y =? 1)%float; [now apply leb_refl_nonneg | ].
  destruct (x <=? 0)%float eqn:E; [exact E | exact H1].
Qed.

(** [i / 255.0 * 255] truncates back to [i]. *)
Lemma quotient_round_trip (i : Z) :
  0 <= i <= 255 -> trunc (float_of_int i / 255 * 255) = i.
Proof.
  intros Hi. apply Z.eqb_eq. revert i Hi.
  apply (forall_byte (fun i => trunc (float_of_int i / 255 * 255) =? i)).
  vm_compute. reflexivity.
Qed.

(** A power below its base gives an entry below its index, a power above
    its base an entry above. *)
Lemma gamma_table_entry_le
  (pw : float -> float -> float) (oob : float -> Z) (invGamma : float) (i : Z) :
  pow_unit_interval pw -> (0 <? invGamma)%float = true -> 0 <= i <= 255 ->
  (pw (float_of_int i / 255) invGamma <=? float_of_int i / 255)%float = true ->
  nth (Z.to_nat i) (gamma_table pw oob invGamma) 0 <= i.
Proof.
  intros Hunit Hinv Hi Hle.
  destruct (gamma_table_entry pw oob _ i Hunit Hinv Hi) as [-> _].
  pose proof (gamma_power_unit_interval pw _ i Hunit Hinv Hi) as Up.
  destruct (quotient_unit_interval i Hi) as [Q0 Q1].
  pose proof (unit_interval_float _ Q0 Q1) as Uq.
  rewrite <- (quotient_round_trip i Hi) at 2.
  unfold gamma_value. rewrite !trunc_mul_255 by assumption.
  apply scaled_trunc_mono; try assumption. now rewrite <- leb_spec.
Qed.

Lemma gamma_table_entry_ge
  (pw : float -> float -> float) (oob : float -> Z) (invGamma : float) (i : Z) :
  pow_unit_interval pw -> (0 <? invGamma)%float = true -> 0 <= i <= 255 ->
  (float_of_int i / 255 <=? pw (float_of_int i / 255) invGamma)%float = true ->
  i <= nth (Z.to_nat i) (gamma_table pw oob invGamma) 0.
Proof.
  intros Hunit Hinv Hi Hle.
  destruct (gamma_table_entry pw oob _ i Hunit Hinv Hi) as [-> _].
  pose proof (gamma_power_unit_interval pw _ i Hunit Hinv Hi) as Up.
  destruct (quotient_unit_interval i Hi) as [Q0 Q1].
  pose proof (unit_interval_float _ Q0 Q1) as Uq.
  rewrite <- (quotient_round_trip i Hi) at 1.
  unfold gamma_value. rewrite !trunc_mul_255 by assumption.
  apply scaled_trunc_mono; try assumption. now rewrite <- leb_spec.
Qed.

(** X7: for a gamma with 0 < gamma <= 1 the exponent [1.0 / gamma] is at
    least one, so no entry of the table exceeds its index and no pixel of
    the corrected image is brighter than in the original, given a power
    function that keeps the unit interval and does not raise a base under
    an exponent of at least one. *)
Theorem gamma_at_most_one_darkens
  (pw : float -> float -> float) (oob : float -> Z)
  (px : list (list Z)) (gamma : float) :
  valid_pixels px = true ->
  (0 <? gamma)%float = true -> (gamma <=? 1)%float = true ->
  pow_unit_interval pw -> pow_shrinks pw ->
  (1 <=? 1 / gamma)%float = true /\
  (forall i, 0 <= i <= 255 ->
     nth (Z.to_nat i) (gamma_table pw oob (1 / gamma)) 0 <= i) /\
  exists out,
    adjust_gamma pw oob (Gray uint8 px) gamma = Ok (Gray uint8 out) /\
    forall r c p, pixel px r c = Some p ->
      exists q, pixel out r c = Some q /\ q <= p.
Proof.
  intros Hpx H0 H1 Hunit Hshr.
  pose proof (inverse_ge_one gamma H0 H1) as Hinv.
  pose proof (one_le_positive _ Hinv) as Hpos.
  assert (Htab : forall i, 0 <= i <= 255 ->
             nth (Z.to_nat i) (gamma_table pw oob (1 / gamma)) 0 <= i).
  { intros i Hi. apply gamma_table_entry_le; try assumption.
    destruct (quotient_unit_interval i Hi) as [Q0 Q1]. now apply Hshr. }
  split; [exact Hinv | ]. split; [exact Htab | ].
  eexists. split; [apply adjust_gamma_gray; now apply positive_nonzero | ].
  intros r c p Hp. rewrite pixel_map, Hp. cbn [option_map].
  eexists. split; [reflexivity | ].
  destruct (pixel_In px r c p Hp) as (row & Hrow & Hin).
  unfold lookup. rewrite Z.add_0_r.
  apply Htab. exact (valid_pixels_bytes px Hpx row Hrow p Hin).
Qed.

Lemma gamma_at_most_one_darkens_witness :
  (1 <=? 1 / 0.5)%float = true /\
  (forall i, 0 <= i <= 255 ->
     nth (Z.to_nat i) (gamma_table pow_ref cast_zero (1 / 0.5)) 0 <= i) /\
  exists out,
    adjust_gamma pow_ref cast_zero (Gray uint8 [[0; 128]; [255; 64]]) 0.5
    = Ok (Gray uint8 out) /\
    forall r c p, pixel [[0; 128]; [255; 64]] r c = Some p ->
      exists q, pixel out r c = Some q /\ q <= p.
Proof.
  apply (gamma_at_most_one_darkens pow_ref cast_zero [[0; 128]; [255; 64]] 0.5).
  - reflexivity.
  - reflexivity.
  - reflexivity.
  - exact pow_ref_unit_interval.
  - exact pow_ref_shrinks.
Defined.

(** X8: for a finite gamma >= 1 the exponent [1.0 / gamma] is positive and
    at most one, so no entry of the table is below its index and no pixel
    of the corrected image is darker than in the original, given a power
    function that keeps the unit interval and does not lower a base under
    a positive exponent of at most one. *)
Theorem gamma_at_least_one_brightens
  (pw : float -> float -> float) (oob : float -> Z)
  (px : list (list Z)) (gamma : float) :
  valid_pixels px = true ->
  (1 <=? gamma)%float = true -> (gamma <? infinity)%float = true ->
  pow_unit_interval pw -> pow_grows pw ->
  ((0 <? 1 / gamma)%float = true /\ (1 / gamma <=? 1)%float = true) /\
  (forall i, 0 <= i <= 255 ->
     i <= nth (Z.to_nat i) (gamma_table pw oob (1 / gamma)) 0) /\
  exists out,
    adjust_gamma pw oob (Gray uint8 px) gamma = Ok (Gray uint8 out) /\
    forall r c p, pixel px r c = Some p ->
      exists q, pixel out r c = Some q /\ p <= q.
Proof.
  intros Hpx H1 Hfin Hunit Hgrow.
  pose proof (one_le_positive _ H1) as H0.
  pose proof (inverse_positive gamma H0 Hfin) as Hpos.
  pose proof (inverse_le_one gamma H1 Hfin) as Hinv.
  assert (Htab : forall i, 0 <= i <= 255 ->
             i <= nth (Z.to_nat i) (gamma_table pw oob (1 / gamma)) 0).
  { intros i Hi. apply gamma_table_entry_ge; try assumption.
    destruct (quotient_unit_interval i Hi) as [Q0 Q1]. now apply Hgrow. }
  split; [split; assumption | ]. split; [exact Htab | ].
  eexists. split; [apply adjust_gamma_gray; now apply positive_nonzero | ].
  intros r c p Hp. rewrite pixel_map, Hp. cbn [option_map].
  eexists. split; [reflexivity | ].
  destruct (pixel_In px r c p Hp) as (row & Hrow & Hin).
  unfold lookup. rewrite Z.add_0_r.
  apply Htab. exact (valid_pixels_bytes px Hpx row Hrow p Hin).
Qed.

Lemma gamma_at_least_one_brightens_witness :
  ((0 <? 1 / 2)%float = true /\ (1 / 2 <=? 1)%float = true) /\
  (forall i, 0 <= i <= 255 ->
     i <= nth (Z.to_nat i) (gamma_table pow_ceil cast_zero (1 / 2)) 0) /\
  exists out,
    adjust_gamma pow_ceil cast_zero (Gray uint8 [[0; 128]; [255; 64]]) 2
    = Ok (Gray uint8 out) /\
    forall r c p, pixel [[0; 128]; [255; 64]] r c = Some p ->
      exists q, pixel out r c = Some q /\ p <= q.
Proof.
  apply (gamma_at_least_one_brightens pow_ceil cast_zero [[0; 128]; [255; 64]] 2).
  - reflexivity.
  - reflexivity.
  - reflexivity.
  - exact pow_ceil_unit_interval.
  - exact pow_ceil_grows.
Defined.

(** ** The range of the histogram *)

Lemma bins_of_sample (s : Z) :
  Zsum (map (fun k => if in_bin k s then 1 else 0) (arange 0 256)) =
  if in_hist_range s then 1 else 0.
Proof.
  unfold in_hist_range.
  destruct (Z.leb_spec 0 s) as [L0 | L0]; cbn [andb].
  - destruct (Z.leb_spec s 256) as [L1 | L1].
    + destruct (Z.eq_dec s 256) as [-> | N].
      * vm_compute. reflexivity.
      * apply one_bin. lia.
    + transitivity (Zsum (map (fun _ : Z => 0) (arange 0 256)));
        [ | apply Zsum_map_zero].
      apply Zsum_map_ext_in. intros k Hk. apply arange_byte_In in Hk.
      unfold in_bin.
      rewrite (proj2 (Z.ltb_ge s (k + 1))) by lia.
      rewrite (proj2 (Z.eqb_neq s 256)) by lia.
      now rewrite !andb_false_r.
  - transitivity (Zsum (map (fun _ : Z => 0) (arange 0 256)));
      [ | apply Zsum_map_zero].
    apply Zsum_map_ext_in. intros k Hk. apply arange_byte_In in Hk.
    unfold in_bin.
    rewrite (proj2 (Z.leb_gt k s)) by lia.
    rewrite (proj2 (Z.eqb_neq s 256)) by lia.
    now rewrite !andb_false_r.
Qed.

Lemma Zsum_hist_range (x : list Z) :
  Zsum (hist x) = Z.of_nat (length (filter in_hist_range x)).
Proof.
  induction x as [ | s x IH].
  - unfold hist. cbn [filter length Z.of_nat]. apply Zsum_map_zero.
  - unfold hist in *.
    rewrite (Zsum_map_ext_in _
               (fun k => (if in_bin k s then 1 else 0)
                         + Z.of_nat (length (filter (in_bin k) x))))
      by (intros k _; apply count_cons).
    rewrite Zsum_map_add, bins_of_sample, IH, count_cons. reflexivity.
Qed.

(** X9: on an array of integers of any width, the histogram keeps the
    samples from 0 to 256 and drops the others: the bars add up to the
    number of samples in that range, and the last bar counts the samples
    equal to 255 together with those equal to 256. *)
Theorem plot_histogram_range
  (dt : dtype) (px : list (list Z)) (title : String.string) :
  integer_dtype dt = true ->
  let bars := fig_bars (plot_histogram (Gray dt px) title) in
  Zsum bars = Z.of_nat (length (filter in_hist_range (concat px))) /\
  nth 255 bars 0 =
  Z.of_nat (count_occ Z.eq_dec (concat px) 255
            + count_occ Z.eq_dec (concat px) 256).
Proof.
  intros _ bars. unfold bars, plot_histogram; cbn [fig_bars ravel].
  split; [apply Zsum_hist_range | ].
  change 255%nat with (Z.to_nat 255). rewrite nth_hist by lia. f_equal.
  induction (concat px) as [ | s l IH]; [reflexivity | ].
  cbn [filter count_occ]. unfold in_bin at 1.
  destruct (Z.eq_dec s 255) as [-> | N255].
  - destruct (Z.eq_dec 255 256) as [C | _]; [discriminate | ].
    cbn [Z.leb Z.ltb Z.compare Pos.compare Pos.compare_cont Z.add Pos.add
         Pos.succ andb orb length]. rewrite IH. lia.
  - destruct (Z.eq_dec s 256) as [-> | N256].
    + cbn. rewrite IH. lia.
    + replace ((255 <=? s) && (s <? 255 + 1) || (255 =? 255) && (s =? 256))
        with false; [exact IH | ].
      symmetry. rewrite (proj2 (Z.eqb_neq s 256)) by exact N256.
      rewrite andb_false_r, orb_false_r.
      destruct (Z.leb_spec 255 s); [ | reflexivity].
      apply Z.ltb_ge. lia.
Qed.

Lemma plot_histogram_range_witness :
  let bars := fig_bars (plot_histogram (Gray uint16 [[0; 256]; [300; 255]])
                                       String.EmptyString) in
  Zsum bars = Z.of_nat (length (filter in_hist_range
                                       (concat [[0; 256]; [300; 255]]))) /\
  nth 255 bars 0 =
  Z.of_nat (count_occ Z.eq_dec (concat [[0; 256]; [300; 255]]) 255
            + count_occ Z.eq_dec (concat [[0; 256]; [300; 255]]) 256).
Proof.
  apply (plot_histogram_range uint16 [[0; 256]; [300; 255]] String.EmptyString).
  reflexivity.
Defined.

(** ** Contrast between two pixels *)

(** X10: for a valid image and a finite gamma > 0, the correction never
    inverts the order of two pixels: a pixel that is not brighter than
    another in the original is not brighter than it in the corrected
    image, given a power function that is non-decreasing in its base and
    keeps the unit interval. *)
Theorem correction_preserves_order
  (pw : float -> float -> float) (oob : float -> Z)
  (px : list (list Z)) (gamma : float) :
  valid_pixels px = true -> positive_gamma gamma = true ->
  pow_unit_interval pw -> pow_monotone pw ->
  exists out,
    adjust_gamma pw oob (Gray uint8 px) gamma = Ok (Gray uint8 out) /\
    forall r c r' c' p p',
      pixel px r c = Some p -> pixel px r' c' = Some p' -> p <= p' ->
      exists q q',
        pixel out r c = Some q /\ pixel out r' c' = Some q' /\ q <= q'.
Proof.
  intros Hpx Hg Hunit Hmono.
  destruct (positive_gamma_inv gamma Hg) as [Hnz Hinv].
  eexists. split; [now apply adjust_gamma_gray | ].
  intros r c r' c' p p' Hp Hp' Hle.
  rewrite !pixel_map, Hp, Hp'. cbn [option_map].
  do 2 eexists. split; [reflexivity | ]. split; [reflexivity | ].
  destruct (pixel_In px r c p Hp) as (row & Hrow & Hin).
  destruct (pixel_In px r' c' p' Hp') as (row' & Hrow' & Hin').
  pose proof (valid_pixels_bytes px Hpx row Hrow p Hin).
  pose proof (valid_pixels_bytes px Hpx row' Hrow' p' Hin').
  unfold lookup. rewrite !Z.add_0_r.
  apply gamma_table_nondecreasing; try assumption; lia.
Qed.

Lemma correction_preserves_order_witness :
  exists out,
    adjust_gamma pow_ref cast_zero (Gray uint8 [[0; 128]; [255; 64]]) 1
    = Ok (Gray uint8 out) /\
    forall r c r' c' p p',
      pixel [[0; 128]; [255; 64]] r c = Some p ->
      pixel [[0; 128]; [255; 64]] r' c' = Some p' -> p <= p' ->
      exists q q',
        pixel out r c = Some q /\ pixel out r' c' = Some q' /\ q <= q'.
Proof.
  apply (correction_preserves_order pow_ref cast_zero [[0; 128]; [255; 64]] 1).
  - reflexivity.
  - reflexivity.
  - exact pow_ref_unit_interval.
  - exact pow_ref_monotone.
Defined.
